(** * SIFT_tracking: tracking window, descriptor distance and optical flow

    A shallow embedding of the numerical core of the SIFT tracker
    ([utils.cpp] and the constructor in [SIFT_opt_tracker.h]) and the
    properties stated about it.

    Conventions.
    - A C++ [int] is a [Z] kept in the 32-bit two's-complement range by
      [Int32.wrap]: the [int] operations of [ModifyTrackingWindows] and
      of the constructor are the wrapping operations of module [Int32].
      Loop counters and differences of 8-bit pixels cannot overflow and
      are plain integers.
    - A C++ [double] is an exact rational ([Q]); the rounding of the
      binary64 format is not part of the model.
    - Objects reached through a reference or a pointer live in a
      [store]; a reference or pointer is a location of that store, so
      two names may denote the same object.
    - utils.h is not among the sources: its constants
      ([TRACKING_WINDOW_SIZE], [OPTICAL_FLOW_POINT_AREA]) and the pixel
      accessor [pixval8U] are parameters, and so are the functions of
      OpenCV and of kdtree.h that the code calls.

    The first part holds the model, the second part the properties. *)

From Stdlib Require Import ZArith QArith Qround List Lia Lqa Bool.
From Stdlib Require Strings.Byte.
Import ListNotations.
Local Open Scope Z_scope.

(** * Part I: the model *)

(** ** 32-bit signed integers *)

Module Int32.

Definition min_int : Z := - 2 ^ 31.
Definition max_int : Z := 2 ^ 31 - 1.

Definition in_range (z : Z) : Prop := min_int <= z <= max_int.

(** Reduction of a mathematical integer to the representable range. *)
Definition wrap (z : Z) : Z := (z + 2 ^ 31) mod 2 ^ 32 - 2 ^ 31.

Definition add (a b : Z) : Z := wrap (a + b).
Definition sub (a b : Z) : Z := wrap (a - b).
Definition mul (a b : Z) : Z := wrap (a * b).
(** [abs] of <stdlib.h>. *)
Definition abs (a : Z) : Z := wrap (Z.abs a).

End Int32.

(** ** Rectangles and the store *)

(** Modelled from the spec: [Rect] is declared in utils.h, which is not
    among the sources.  A rectangle is (top, left, width, height) in
    image pixel coordinates; the code names the fields [upper], [left],
    [width] and [height] and computes with them as [int]s. *)
Record Rect : Type := mkRect
  { upper : Z; left : Z; width : Z; height : Z }.

Definition set_upper (v : Z) (r : Rect) : Rect :=
  {| upper := v; left := left r; width := width r; height := height r |}.
Definition set_left (v : Z) (r : Rect) : Rect :=
  {| upper := upper r; left := v; width := width r; height := height r |}.
Definition set_width (v : Z) (r : Rect) : Rect :=
  {| upper := upper r; left := left r; width := v; height := height r |}.
Definition set_height (v : Z) (r : Rect) : Rect :=
  {| upper := upper r; left := left r; width := width r; height := v |}.

(** A reference ([Rect&]) or pointer ([Rect*]) is a location. *)
Definition loc : Type := nat.
Definition store : Type := loc -> Rect.

Definition upd (st : store) (l : loc) (r : Rect) : store :=
  fun l' => if Nat.eqb l' l then r else st l'.

(** ** Statements over the store *)

(** A statement transforms the store; expressions and conditions read it. *)
Definition cmd : Type := store -> store.

Definition seq (c1 c2 : cmd) : cmd := fun st => c2 (c1 st).
Notation "c1 ;; c2" := (seq c1 c2) (at level 61, right associativity).

(** [p->field = e;] *)
Definition assign (p : loc) (setter : Z -> Rect -> Rect) (e : store -> Z) : cmd :=
  fun st => upd st p (setter (e st) (st p)).

(** [if (b) { c }] *)
Definition ifthen (b : store -> bool) (c : cmd) : cmd :=
  fun st => if b st then c st else st.

(** ** cvRound *)

(** OpenCV's [cvRound]: the nearest integer.  A tie goes to the even
    neighbour here, as with [lrint] and the SSE2 conversion; no property
    below depends on how a tie is resolved. *)
Definition cvRound (x : Q) : Z :=
  let f := Qfloor x in
  match (x - inject_Z f ?= 1 # 2)%Q with
  | Lt => f
  | Gt => f + 1
  | Eq => if Z.even f then f else f + 1
  end.

(** ** The tracking window: [ModifyTrackingWindows] *)

Section TrackingWindow.

(** [TRACKING_WINDOW_SIZE], a constant of utils.h. *)
Variable TRACKING_WINDOW_SIZE : Q.

(** [cvRound(TRACKING_WINDOW_SIZE*n)] for an [int] n. *)
Definition padding (n : Z) : Z :=
  cvRound (TRACKING_WINDOW_SIZE * inject_Z n).

(** [void ModifyTrackingWindows(Rect &trackingRect, Rect* TrackingWindow,
    Rect WholeImageSize)], statement by statement.  [trackingRect] and
    [TrackingWindow] are locations and may be the same one;
    [WholeImageSize] is passed by value. *)
Definition ModifyTrackingWindows
  (trackingRect TrackingWindow : loc) (WholeImageSize : Rect) : cmd :=
  assign TrackingWindow set_upper (fun st =>
    Int32.sub (upper (st trackingRect))
              (padding (height (st trackingRect)))) ;;
  assign TrackingWindow set_left (fun st =>
    Int32.sub (left (st trackingRect))
              (padding (width (st trackingRect)))) ;;
  assign TrackingWindow set_width (fun st =>
    Int32.add (width (st trackingRect))
              (Int32.mul 2 (padding (width (st trackingRect))))) ;;
  assign TrackingWindow set_height (fun st =>
    Int32.add (height (st trackingRect))
              (Int32.mul 2 (padding (height (st trackingRect))))) ;;
  ifthen (fun st => upper (st TrackingWindow) <? 0)
    (assign TrackingWindow set_height (fun st =>
       Int32.sub (height (st TrackingWindow))
                 (Int32.abs (upper (st TrackingWindow)))) ;;
     assign TrackingWindow set_upper (fun _ => 0)) ;;
  ifthen (fun st =>
       Int32.add (upper (st TrackingWindow)) (height (st TrackingWindow))
       >? height WholeImageSize)
    (assign TrackingWindow set_height (fun st =>
       Int32.sub (height (st TrackingWindow))
         (Int32.abs
            (Int32.sub
               (Int32.add (upper (st TrackingWindow))
                          (height (st TrackingWindow)))
               (height WholeImageSize))))) ;;
  ifthen (fun st => left (st TrackingWindow) <? 0)
    (assign TrackingWindow set_width (fun st =>
       Int32.sub (width (st TrackingWindow))
                 (Int32.abs (left (st TrackingWindow)))) ;;
     assign TrackingWindow set_left (fun _ => 0)) ;;
  ifthen (fun st =>
       Int32.add (left (st TrackingWindow)) (width (st TrackingWindow))
       >? width WholeImageSize)
    (assign TrackingWindow set_width (fun st =>
       Int32.sub (width (st TrackingWindow))
         (Int32.abs
            (Int32.sub
               (Int32.add (left (st TrackingWindow))
                          (width (st TrackingWindow)))
               (width WholeImageSize))))).

(** *** The window as the specification words it *)

(** One axis of a rectangle: where it starts and how far it extends. *)
Definition span : Type := (Z * Z)%type.

(** Extend by [p] on each side. *)
Definition pad_span (p : Z) (s : span) : span :=
  (fst s - p, snd s + 2 * p).

(** A negative start moves to 0 and the extent shrinks by the overflow. *)
Definition clamp_low (s : span) : span :=
  if fst s <? 0 then (0, snd s - (- fst s)) else s.

(** An end beyond [bound] shrinks the extent by the overflow. *)
Definition clamp_high (bound : Z) (s : span) : span :=
  if fst s + snd s >? bound then (fst s, snd s - (fst s + snd s - bound))
  else s.

Definition window_span (bound start extent : Z) : span :=
  clamp_high bound (clamp_low (pad_span (padding extent) (start, extent))).

(** [ComputeWindow(targetRect, paddingFraction, imageBounds)] with
    [paddingFraction = TRACKING_WINDOW_SIZE]: pad each side by the
    rounded padding of the axis, then clamp, each axis on its own, over
    the mathematical integers. *)
Definition ComputeWindow (target imageBounds : Rect) : Rect :=
  let v := window_span (height imageBounds) (upper target) (height target) in
  let h := window_span (width imageBounds) (left target) (width target) in
  {| upper := fst v; left := fst h; width := snd h; height := snd v |}.

(** *** Calls whose [int] arithmetic stays in range *)

(** A magnitude of at most [2^28]. *)
Definition small (z : Z) : Prop := - 2 ^ 28 <= z <= 2 ^ 28.

(** The target's fields, the two rounded paddings and the image size are
    [small]: no [int] operation of [ModifyTrackingWindows] overflows. *)
Definition no_overflow (t img : Rect) : Prop :=
  small (upper t) /\ small (left t) /\ small (width t) /\ small (height t) /\
  small (padding (width t)) /\ small (padding (height t)) /\
  small (width img) /\ small (height img).

End TrackingWindow.

(** ** Counted loops *)

(** [for (int i = lo; i < hi; i++) body], run on a state [s].  The fuel
    is the number of iterations the loop has left. *)
Fixpoint for_loop {S : Type} (fuel : nat) (i hi : Z) (body : Z -> S -> S) (s : S) : S :=
  match fuel with
  | O => s
  | Datatypes.S fuel' =>
      if i <? hi then for_loop fuel' (i + 1) hi body (body i s) else s
  end.

Definition for_ {S : Type} (lo hi : Z) (body : Z -> S -> S) (s : S) : S :=
  for_loop (Z.to_nat (hi - lo)) lo hi body s.

(** The integers [lo, lo+1, ..., hi-1]. *)
Fixpoint Zrange_from (lo : Z) (n : nat) : list Z :=
  match n with
  | O => []
  | Datatypes.S n' => lo :: Zrange_from (lo + 1) n'
  end.

Definition Zrange (lo hi : Z) : list Z := Zrange_from lo (Z.to_nat (hi - lo)).

(** The sum of a list of doubles, taken from left to right from 0. *)
Definition Qsum (l : list Q) : Q := fold_left Qplus l 0%Q.

(** ** Descriptor distance *)

(** Modelled from the spec: [struct SIFT_feature_unit] is declared in
    SIFT_feature.h, which is not among the sources.  A feature
    descriptor is a numeric vector [descr] of length [d] plus a 2D
    position ([x], [y]); these are the fields the code reads. *)
Module SIFT_feature_unit.
Record t : Type := mk { x : Q; y : Q; d : Z; descr : list Q }.

(** The descriptor holds [d] values. *)
Definition well_formed (f : t) : Prop := Z.of_nat (length (descr f)) = d f.
End SIFT_feature_unit.

(** [DBL_MAX] of <float.h>: the largest finite binary64 number. *)
Definition DBL_MAX : Q := inject_Z (2 ^ 1024 - 2 ^ 971).

(** [descr1[i]]; an index outside the array reads as 0. *)
Definition index (a : list Q) (i : Z) : Q := nth (Z.to_nat i) a 0%Q.

(** [double descr_dist_sq(struct SIFT_feature_unit* f1,
    struct SIFT_feature_unit* f2)]. *)
Definition descr_dist_sq (f1 f2 : SIFT_feature_unit.t) : Q :=
  let dsq := 0%Q in
  let d := SIFT_feature_unit.d f1 in
  if negb (SIFT_feature_unit.d f2 =? d) then DBL_MAX
  else
    let descr1 := SIFT_feature_unit.descr f1 in
    let descr2 := SIFT_feature_unit.descr f2 in
    for_ 0 d
      (fun i dsq =>
         let diff := (index descr1 i - index descr2 i)%Q in
         (dsq + diff * diff)%Q)
      dsq.

(** The sum of the squared per-dimension differences of two vectors. *)
Definition sum_sq_diff (v1 v2 : list Q) : Q :=
  Qsum (map (fun ab => ((fst ab - snd ab) * (fst ab - snd ab))%Q) (combine v1 v2)).

(** ** Optical flow *)

(** Modelled from the spec: [Point2D] is declared in utils.h, which is
    not among the sources.  It is a 2D location with two readings used
    interchangeably: image coordinates ([row], [col]) and displacement
    or gradient vectors ([drow], [dcol]); [Point2D(a, b)] sets the row
    reading to [a] and the column reading to [b]. *)
Record Point2D : Type := mkPoint2D { row : Q; col : Q }.
Definition drow (v : Point2D) : Q := row v.
Definition dcol (v : Point2D) : Q := col v.

(** A 2x2 [CvMat] of doubles, row by row, and a 2x1 one. *)
Record Mat2x2 : Type := mkMat2x2 { m00 : Q; m01 : Q; m10 : Q; m11 : Q }.
Record Mat2x1 : Type := mkMat2x1 { v0 : Q; v1 : Q }.

(** [cvMatMul(A, x, r)] for a 2x2 [A] and a 2x1 [x]. *)
Definition cvMatMul (A : Mat2x2) (x : Mat2x1) : Mat2x1 :=
  {| v0 := m00 A * v0 x + m01 A * v1 x;
     v1 := m10 A * v0 x + m11 A * v1 x |}%Q.

(** The five sums [getOptFlow] accumulates. *)
Record sums : Type := mkSums { M11 : Q; M12 : Q; M22 : Q; b0 : Q; b1 : Q }.

Section OpticalFlow.

(** OpenCV's [IplImage], and the pixel accessor [pixval8U] of utils.h,
    which reads one unsigned 8-bit pixel at a row and a column. *)
Variable IplImage : Type.
Variable pixval8U : IplImage -> Q -> Q -> Byte.byte.

(** The constant [OPTICAL_FLOW_POINT_AREA] of utils.h. *)
Variable OPTICAL_FLOW_POINT_AREA : Z.

(** OpenCV's [cvInvert(src, dst, CV_SVD)] on a 2x2 matrix. *)
Variable cvInvert_SVD : Mat2x2 -> Mat2x2.

(** The pixel as the [int] it is promoted to. *)
Definition pix (ipIm : IplImage) (r c : Q) : Z :=
  Z.of_N (Byte.to_N (pixval8U ipIm r c)).

(** [Point2D partial(IplImage* ipIm, Point2D p)]. *)
Definition partial (ipIm : IplImage) (p : Point2D) : Point2D :=
  let dcol := (inject_Z (pix ipIm (row p) (col p + 1) - pix ipIm (row p) (col p - 1)) / 2)%Q in
  let drow := (inject_Z (pix ipIm (row p + 1) (col p) - pix ipIm (row p - 1) (col p)) / 2)%Q in
  {| row := drow; col := dcol |}.

(** The body of the inner loop of [getOptFlow] at offset (i, j). *)
Definition accumulate (currentFrame : IplImage) (p : Point2D) (preFrame : IplImage)
  (i j : Z) (s : sums) : sums :=
  let r := (row p + inject_Z i)%Q in
  let c := (col p + inject_Z j)%Q in
  let temp := partial currentFrame (mkPoint2D r c) in
  let dI := inject_Z (pix currentFrame r c - pix preFrame r c) in
  {| M11 := M11 s + dcol temp * dcol temp;
     M12 := M12 s + dcol temp * drow temp;
     M22 := M22 s + drow temp * drow temp;
     b0 := b0 s + dcol temp * dI;
     b1 := b1 s + drow temp * dI |}%Q.

(** The two nested loops of [getOptFlow].  The lower bound
    [-OPTICAL_FLOW_POINT_AREA/2] negates the constant and then divides,
    and the division of C truncates. *)
Definition flow_sums (currentFrame : IplImage) (p : Point2D) (preFrame : IplImage) : sums :=
  let lo := Z.quot (- OPTICAL_FLOW_POINT_AREA) 2 in
  let hi := Z.quot OPTICAL_FLOW_POINT_AREA 2 in
  for_ lo hi
    (fun i s => for_ lo hi (fun j s => accumulate currentFrame p preFrame i j s) s)
    {| M11 := 0; M12 := 0; M22 := 0; b0 := 0; b1 := 0 |}%Q.

(** [Point2D getOptFlow(IplImage* currentFrame, Point2D p, IplImage* preFrame)].
    The assignments [temp.col=0; temp.row=0;] between the loops and the
    product do not reach the result and are left out. *)
Definition getOptFlow (currentFrame : IplImage) (p : Point2D) (preFrame : IplImage) : Point2D :=
  let s := flow_sums currentFrame p preFrame in
  let M := {| m00 := M11 s; m01 := M12 s; m10 := M12 s; m11 := M22 s |} in
  let Mi := cvInvert_SVD M in
  let Mb := {| v0 := - b0 s; v1 := - b1 s |}%Q in
  let Mr := cvMatMul Mi Mb in
  let vy := v1 Mr in
  let vx := v0 Mr in
  mkPoint2D vy vx.

(** *** The quantities of the specification *)

(** Half of the neighbourhood size. *)
Definition half_width : Z := Z.quot OPTICAL_FLOW_POINT_AREA 2.

(** The offsets (i, j) the loops visit, in the order they visit them. *)
Definition offsets : list (Z * Z) :=
  list_prod (Zrange (- half_width) half_width) (Zrange (- half_width) half_width).

(** Intensity at a position: the grey level, an integer. *)
Definition intensity (I : IplImage) (r c : Q) : Z := pix I r c.

(** Central differences of the intensity of [I] at offset [o] from [p]:
    in the column direction and in the row direction. *)
Definition gx (I : IplImage) (p : Point2D) (o : Z * Z) : Q :=
  let r := (row p + inject_Z (fst o))%Q in
  let c := (col p + inject_Z (snd o))%Q in
  (inject_Z (intensity I r (c + 1) - intensity I r (c - 1)) / 2)%Q.

Definition gy (I : IplImage) (p : Point2D) (o : Z * Z) : Q :=
  let r := (row p + inject_Z (fst o))%Q in
  let c := (col p + inject_Z (snd o))%Q in
  (inject_Z (intensity I (r + 1) c - intensity I (r - 1) c) / 2)%Q.

(** [I_cur - I_prev] at offset [o] from [p]. *)
Definition dI (cur pre : IplImage) (p : Point2D) (o : Z * Z) : Q :=
  let r := (row p + inject_Z (fst o))%Q in
  let c := (col p + inject_Z (snd o))%Q in
  inject_Z (intensity cur r c - intensity pre r c).

(** Sum over the neighbourhood. *)
Definition over_offsets (f : Z * Z -> Q) : Q := Qsum (map f offsets).

(** The gradient structure matrix and the right-hand side. *)
Definition structure_matrix (cur : IplImage) (p : Point2D) : Mat2x2 :=
  {| m00 := over_offsets (fun o => gx cur p o * gx cur p o);
     m01 := over_offsets (fun o => gx cur p o * gy cur p o);
     m10 := over_offsets (fun o => gx cur p o * gy cur p o);
     m11 := over_offsets (fun o => gy cur p o * gy cur p o) |}%Q.

Definition rhs (cur pre : IplImage) (p : Point2D) : Mat2x1 :=
  {| v0 := over_offsets (fun o => gx cur p o * dI cur pre p o);
     v1 := over_offsets (fun o => gy cur p o * dI cur pre p o) |}%Q.

End OpticalFlow.

(** ** The tracker's constructor *)

Section Tracker.

Variable TRACKING_WINDOW_SIZE : Q.
(** OpenCV's [IplImage], and [kd_node] with [kdtree_build] of kdtree.h. *)
Variable IplImage : Type.
Variable kd_node : Type.
Variable kdtree_build : list SIFT_feature_unit.t -> Z -> kd_node.

(** The data members of [class SIFT_opt_tracker]; a [SIFT_feature] is
    the sequence of its feature units. *)
Record SIFT_opt_tracker : Type := mkTracker
  { kd_root : kd_node;
    tracking_template : list SIFT_feature_unit.t;
    preFrame : IplImage;
    TrackingWindow : Rect;
    optflow : list Point2D }.

(** [Sfeat->GetFeat(i)]. *)
Definition GetFeat (Sfeat : list SIFT_feature_unit.t) (i : Z) : SIFT_feature_unit.t :=
  nth (Z.to_nat i) Sfeat (SIFT_feature_unit.mk 0 0 0 []).

(** [Sfeat->GetLength()]. *)
Definition GetLength (Sfeat : list SIFT_feature_unit.t) : Z := Z.of_nat (length Sfeat).

(** [SIFT_opt_tracker(SIFT_feature* Sfeat, IplImage* preF, int Sfeat_num_fp,
    Rect trackingRect)]. *)
Definition SIFT_opt_tracker_new (Sfeat : list SIFT_feature_unit.t) (preF : IplImage)
  (Sfeat_num_fp : Z) (trackingRect : Rect) : SIFT_opt_tracker :=
  let tracking_template := Sfeat in
  let kd_root := kdtree_build Sfeat (GetLength tracking_template) in
  let TrackingWindow :=
    {| upper := Int32.sub (upper trackingRect)
                  (cvRound (TRACKING_WINDOW_SIZE * inject_Z (height trackingRect)));
       left := Int32.sub (left trackingRect)
                 (cvRound (TRACKING_WINDOW_SIZE * inject_Z (width trackingRect)));
       width := Int32.add (width trackingRect)
                  (cvRound (TRACKING_WINDOW_SIZE * inject_Z (width trackingRect)));
       height := Int32.add (height trackingRect)
                   (cvRound (TRACKING_WINDOW_SIZE * inject_Z (height trackingRect))) |} in
  let optflow :=
    for_ 0 (GetLength tracking_template)
      (fun i optflow =>
         optflow ++
         [mkPoint2D
            (SIFT_feature_unit.y (GetFeat tracking_template i) + inject_Z (upper trackingRect))
            (SIFT_feature_unit.x (GetFeat tracking_template i) + inject_Z (left trackingRect))])
      [] in
  {| kd_root := kd_root; tracking_template := tracking_template; preFrame := preF;
     TrackingWindow := TrackingWindow; optflow := optflow |}.

End Tracker.


(** ** Notions the properties are stated with *)

(** *** The statements of [ModifyTrackingWindows] on one rectangle *)

Section WindowValue.

Variable TRACKING_WINDOW_SIZE : Q.

(** The four initial assignments read the target [t]; each [if]
    rewrites the window [w]. *)
Definition padded (t : Rect) : Rect :=
  {| upper := Int32.sub (upper t) (padding TRACKING_WINDOW_SIZE (height t));
     left := Int32.sub (left t) (padding TRACKING_WINDOW_SIZE (width t));
     width := Int32.add (width t) (Int32.mul 2 (padding TRACKING_WINDOW_SIZE (width t)));
     height := Int32.add (height t) (Int32.mul 2 (padding TRACKING_WINDOW_SIZE (height t))) |}.

Definition clip_upper (w : Rect) : Rect :=
  if upper w <? 0 then
    set_upper 0 (set_height (Int32.sub (height w) (Int32.abs (upper w))) w)
  else w.

Definition clip_lower (img w : Rect) : Rect :=
  if Int32.add (upper w) (height w) >? height img then
    set_height
      (Int32.sub (height w)
         (Int32.abs (Int32.sub (Int32.add (upper w) (height w)) (height img)))) w
  else w.

Definition clip_left (w : Rect) : Rect :=
  if left w <? 0 then
    set_left 0 (set_width (Int32.sub (width w) (Int32.abs (left w))) w)
  else w.

Definition clip_right (img w : Rect) : Rect :=
  if Int32.add (left w) (width w) >? width img then
    set_width
      (Int32.sub (width w)
         (Int32.abs (Int32.sub (Int32.add (left w) (width w)) (width img)))) w
  else w.

(** The rectangle a call leaves in [*TrackingWindow], as a function of
    the target rectangle read at entry. *)
Definition window_value (t img : Rect) : Rect :=
  clip_right img (clip_left (clip_lower img (clip_upper (padded t)))).

End WindowValue.

(** One axis of [window_value]: the start and the extent after the
    padding [p] and the two [if] statements of that axis. *)
Definition axis_value (bound start extent p : Z) : Z * Z :=
  let s0 := Int32.sub start p in
  let e0 := Int32.add extent (Int32.mul 2 p) in
  let e1 := if s0 <? 0 then Int32.sub e0 (Int32.abs s0) else e0 in
  let s1 := if s0 <? 0 then 0 else s0 in
  let e2 :=
    if Int32.add s1 e1 >? bound
    then Int32.sub e1 (Int32.abs (Int32.sub (Int32.add s1 e1) bound))
    else e1 in
  (s1, e2).

(** The target lies in the image and has a non-negative size. *)
Definition inside (t img : Rect) : Prop :=
  0 <= upper t /\ 0 <= left t /\ 0 <= width t /\ 0 <= height t /\
  upper t + height t <= height img /\ left t + width t <= width img.

(** On one axis, padding by [p] and clamping to [bound] gives back the
    span from [start] of length [extent]. *)
Definition axis_fixed (p start extent bound : Z) : Prop :=
  p = 0 \/ (0 < p /\ start = 0 /\ extent = bound).

(** On one axis, the target padded by [p] on each side and the image
    have a point in common: the padded span goes from [start - p] to
    [start + extent + p], the image from 0 to [bound]. *)
Definition axis_meets (p start extent bound : Z) : Prop :=
  start - p <= bound /\ 0 <= start + extent + p /\ 0 <= bound.

(** *** Footprints of statements *)

(** The store that holds [b] at [tw] and [a] everywhere else. *)
Definition cells (tw : loc) (a b : Rect) : store :=
  fun l => if Nat.eqb l tw then b else a.

(** [e] looks at the store through [rt] and [tw] only. *)
Definition reads_only (rt tw : loc) {A : Type} (e : store -> A) : Prop :=
  forall st st', st rt = st' rt -> st tw = st' tw -> e st = e st'.

(** [c] reads [*rt] and [*tw] only and writes [*tw] only: it leaves
    [g (st rt) (st tw)] at [tw] and every other location as it was. *)
Definition footprint (rt tw : loc) (c : cmd) (g : Rect -> Rect -> Rect) : Prop :=
  forall st l, c st l = if Nat.eqb l tw then g (st rt) (st tw) else st l.

(** *** Matrices *)

(** The product of two 2x2 matrices. *)
Definition mat_mul (A B : Mat2x2) : Mat2x2 :=
  {| m00 := m00 A * m00 B + m01 A * m10 B;
     m01 := m00 A * m01 B + m01 A * m11 B;
     m10 := m10 A * m00 B + m11 A * m10 B;
     m11 := m10 A * m01 B + m11 A * m11 B |}%Q.

(** Equality of matrices as numbers, entry by entry. *)
Definition mat_eq (A B : Mat2x2) : Prop :=
  (m00 A == m00 B /\ m01 A == m01 B /\ m10 A == m10 B /\ m11 A == m11 B)%Q.

Definition vec_eq (x y : Mat2x1) : Prop := (v0 x == v0 y /\ v1 x == v1 y)%Q.

(** [X] is a generalised inverse of [M]: [M X M = M].  The inverse of a
    regular matrix and the Moore-Penrose pseudo-inverse of any matrix
    are generalised inverses. *)
Definition ginverse (M X : Mat2x2) : Prop := mat_eq (mat_mul (mat_mul M X) M) M.

(** The Moore-Penrose pseudo-inverse of a 2x2 matrix, in exact
    arithmetic: the inverse when the determinant is not 0, else the
    transpose divided by the sum of the squared entries (rank 1), else
    the zero matrix.  It is what [cvInvert] with [CV_SVD] approximates. *)
Definition pinv (M : Mat2x2) : Mat2x2 :=
  let det := (m00 M * m11 M - m01 M * m10 M)%Q in
  let n := (m00 M * m00 M + m01 M * m01 M + m10 M * m10 M + m11 M * m11 M)%Q in
  if negb (Qeq_bool det 0) then
    {| m00 := m11 M / det; m01 := - m01 M / det;
       m10 := - m10 M / det; m11 := m00 M / det |}%Q
  else if negb (Qeq_bool n 0) then
    {| m00 := m00 M / n; m01 := m10 M / n;
       m10 := m01 M / n; m11 := m11 M / n |}%Q
  else {| m00 := 0; m01 := 0; m10 := 0; m11 := 0 |}%Q.

(** *** Pairs of offsets *)

Definition Zpair_eq_dec (a b : Z * Z) : {a = b} + {a <> b}.
Proof. decide equality; apply Z.eq_dec. Defined.

(** *** Positions at an integer offset *)


(** *** Numbers with a short binary expansion *)

(** [q] is [k/4] for an integer [k] of magnitude at most [n].  Such a
    number is a binary64 number when [n < 2^53]. *)
Definition quarters (n : Z) (q : Q) : Prop :=
  exists k : Z, (q == k # 4)%Q /\ Z.abs k <= n.

(** ** Concrete data *)

(** A 100 x 100 image. *)
Definition image_100 : Rect := mkRect 0 0 100 100.

(** A store with the rectangle [t] at location 0 and an all-zero
    rectangle everywhere else. *)
Definition store_with (t : Rect) : store :=
  fun l => match l with O => t | _ => mkRect 0 0 0 0 end.

(** A frame as a function from pixel indices to grey levels; a position
    reads the pixel whose indices are the floors of its coordinates. *)
Definition frame : Type := Z -> Z -> Byte.byte.
Definition frame_pixel (f : frame) (r c : Q) : Byte.byte := f (Qfloor r) (Qfloor c).

Definition grey (z : Z) : Byte.byte :=
  match Byte.of_N (Z.to_N (z mod 256)) with Some b => b | None => Byte.x00 end.

(** Grey levels that grow along the columns only, and the same ramp one
    column further. *)
Definition ramp : frame := fun _ c => grey (10 * c).
Definition ramp_shifted : frame := fun _ c => grey (10 * c + 10).

(** One grey level everywhere. *)
Definition flat : frame := fun _ _ => grey 128.




(** ** Further functions of utils.cpp *)

(** *** Distance of two points *)

(** OpenCV's [CvPoint2D64f]: two doubles. *)
Module CvPoint2D64f.
Record t : Type := mk { x : Q; y : Q }.
End CvPoint2D64f.

(** [double dist_sq_2D(CvPoint2D64f p1, CvPoint2D64f p2)].  The doubles
    are exact rationals, as everywhere here: what is stated of the
    function below uses only what also holds of the binary64 operations
    on finite values ([a - b] and [b - a] have the same square, a
    square is not negative, [a - a] is 0). *)
Definition dist_sq_2D (p1 p2 : CvPoint2D64f.t) : Q :=
  let x_diff := (CvPoint2D64f.x p1 - CvPoint2D64f.x p2)%Q in
  let y_diff := (CvPoint2D64f.y p1 - CvPoint2D64f.y p2)%Q in
  (x_diff * x_diff + y_diff * y_diff)%Q.

(** *** C strings *)

(** The memory a [char*] points to is the list of the bytes from the
    pointer to the end of its object; a function that would read or
    write past the object, or through a null pointer, has no defined
    behaviour and returns [None]. *)
Module CString.

Definition mem : Type := list Byte.byte.

Definition NUL : Byte.byte := Byte.x00.

(** The string at a pointer: the bytes before the first terminator. *)
Fixpoint c_str (m : mem) : list Byte.byte :=
  match m with
  | [] => []
  | b :: m' => if Byte.eqb b NUL then [] else b :: c_str m'
  end.

(** Whether the object holds a terminator. *)
Definition terminated (m : mem) : bool := existsb (Byte.eqb NUL) m.

(** [strlen(s)] *)
Definition strlen (s : mem) : option nat :=
  if terminated s then Some (length (c_str s)) else None.

(** The offset of the last occurrence of [c] in a list of bytes. *)
Fixpoint last_index (c : Byte.byte) (s : list Byte.byte) : option nat :=
  match s with
  | [] => None
  | b :: s' =>
      match last_index c s' with
      | Some k => Some (S k)
      | None => if Byte.eqb b c then Some 0%nat else None
      end
  end.

(** [strrchr(s, c)]: the offset from [s] of the last [c] in the string
    (whose terminator counts as a part of it), [Some None] for the null
    pointer returned when there is none. *)
Definition strrchr (s : mem) (c : Byte.byte) : option (option nat) :=
  if terminated s then Some (last_index c (c_str s ++ [NUL])) else None.

(** [*(p + i) = b] *)
Definition poke (p : mem) (i : nat) (b : Byte.byte) : option mem :=
  if (i <? length p)%nat then Some (firstn i p ++ b :: skipn (S i) p) else None.

(** Storing the bytes [bs] one after the other from offset [i] on. *)
Fixpoint write (p : mem) (i : nat) (bs : list Byte.byte) : option mem :=
  match bs with
  | [] => Some p
  | b :: bs' =>
      match poke p i b with
      | Some p' => write p' (S i) bs'
      | None => None
      end
  end.

(** [strcpy(dst, src)] *)
Definition strcpy (dst src : mem) : option mem :=
  if terminated src then write dst 0 (c_str src ++ [NUL]) else None.

(** [strcat(dst, src)] *)
Definition strcat (dst src : mem) : option mem :=
  match strlen dst with
  | Some n => if terminated src then write dst n (c_str src ++ [NUL]) else None
  | None => None
  end.

End CString.

Notation "'let*' x := e 'in' k" :=
  (match e with Some x => k | None => None end)
  (at level 10, x name, e at level 100, k at level 200, only parsing).

Section Strings.

Import CString.

(** Whether the allocator satisfies a request for so many bytes. *)
Variable available : nat -> bool.

(** [calloc(n, size)]: a block of [n * size] zero bytes, or the null
    pointer. *)
Definition calloc (n size : nat) : option mem :=
  if available (n * size) then Some (repeat NUL (n * size)) else None.

(** [char* replace_extension(const char* file, const char* extn)].  The
    lengths are [size_t] values, modelled as natural numbers. *)
Definition replace_extension (file extn : mem) : option mem :=
  let* n_file := strlen file in
  let* n_extn := strlen extn in
  let* new_file := calloc (n_file + n_extn + 2) 1 in
  let* new_file := strcpy new_file file in
  let* lastdot := strrchr new_file Byte.x2e in
  let* new_file :=
    match lastdot with
    | Some lastdot => poke new_file (lastdot + 1) NUL
    | None => strcat new_file [Byte.x2e; NUL]
    end in
  strcat new_file extn.

(** [char* basename(const char* pathname)].  [last_slash++] hands the
    pointer to the slash to [strlen] and moves on to the byte after
    it. *)
Definition basename (pathname : mem) : option mem :=
  let* last_slash := strrchr pathname Byte.x2f in
  match last_slash with
  | None =>
      let* n := strlen pathname in
      let* base := calloc (n + 1) 1 in
      strcpy base pathname
  | Some last_slash =>
      let* n := strlen (skipn last_slash pathname) in
      let last_slash := (last_slash + 1)%nat in
      let* base := calloc n 1 in
      strcpy base (skipn last_slash pathname)
  end.

End Strings.

(** The C strings "img.jpeg", "png" and "/tmp/a.b/img.jpeg". *)
Definition img_jpeg : CString.mem :=
  [Byte.x69; Byte.x6d; Byte.x67; Byte.x2e; Byte.x6a; Byte.x70; Byte.x65; Byte.x67;
   Byte.x00].
Definition png : CString.mem := [Byte.x70; Byte.x6e; Byte.x67; Byte.x00].
Definition tmp_img_jpeg : CString.mem :=
  [Byte.x2f; Byte.x74; Byte.x6d; Byte.x70; Byte.x2f; Byte.x61; Byte.x2e; Byte.x62;
   Byte.x2f; Byte.x69; Byte.x6d; Byte.x67; Byte.x2e; Byte.x6a; Byte.x70; Byte.x65;
   Byte.x67; Byte.x00].

(** *** The pinwheel *)

(** What a function prints: the calls of [fprintf] and [fflush], in
    their order. *)
Module Console.
Inductive stream : Type := stdout | stderr.
Inductive event : Type :=
| Print (f : stream) (text : list Byte.byte)
| Flush (f : stream).
End Console.

(** [void progress(int done)], with the value of the static [cur] at
    the call as argument and its value at the return as first result.
    An index outside [state] reads as 0. *)
Definition progress (done : Z) (cur : Z) : Z * list Console.event :=
  let state := [Byte.x7c; Byte.x2f; Byte.x2d; Byte.x5c] in
  let out :=
    if cur =? -1 then [Console.Print Console.stderr [Byte.x20; Byte.x20]] else [] in
  if negb (done =? 0) then
    (-1,
     out ++ [Console.Print Console.stderr
               [Byte.x08; Byte.x08; Byte.x64; Byte.x6f; Byte.x6e; Byte.x65; Byte.x0a]])
  else
    let cur := Z.rem (Int32.add cur 1) 4 in
    (cur,
     out ++ [Console.Print Console.stdout
               [Byte.x08; Byte.x08; nth (Z.to_nat cur) state Byte.x00; Byte.x20];
             Console.Flush Console.stderr]).

(** The calls [progress(d)] for the [d] of a list, one after the other:
    each call finds the [cur] the call before it has left. *)
Fixpoint progress_calls (dones : list Z) (cur : Z) : Z * list Console.event :=
  match dones with
  | [] => (cur, [])
  | d :: dones' =>
      let (cur, out) := progress d cur in
      let (cur, out') := progress_calls dones' cur in
      (cur, out ++ out')
  end.

(** The value [cur] is initialised with. *)
Definition cur_init : Z := -1.

(** *** The video viewer *)

(** The variables [i] and [playing] of [vid_view], the indices of the
    images handed to [cvShowImage] so far, and whether the function has
    destroyed the window. *)
Module Player.
Record t : Type := mk { i : Z; playing : Z; shown : list Z; destroyed : bool }.
End Player.

(** [cvNamedWindow( win_name, 1 ); cvShowImage( win_name, imgs[i] );] *)
Definition show (s : Player.t) : Player.t :=
  Player.mk (Player.i s) (Player.playing s) (Player.shown s ++ [Player.i s])
    (Player.destroyed s).

Definition set_i (v : Z) (s : Player.t) : Player.t :=
  Player.mk v (Player.playing s) (Player.shown s) (Player.destroyed s).

Definition set_playing (v : Z) (s : Player.t) : Player.t :=
  Player.mk (Player.i s) v (Player.shown s) (Player.destroyed s).

(** [cvDestroyWindow( win_name );] *)
Definition destroy (s : Player.t) : Player.t :=
  Player.mk (Player.i s) (Player.playing s) (Player.shown s) true.

(** OpenCV's macros [MIN(a,b) ((a) > (b) ? (b) : (a))] and
    [MAX(a,b) ((a) < (b) ? (b) : (a))]. *)
Definition MIN (a b : Z) : Z := if a >? b then b else a.
Definition MAX (a b : Z) : Z := if a <? b then b else a.

(** The body of the loop of [vid_view], for the key [k] that
    [cvWaitKey] returns in it (-1 when the time is over with no key
    pressed). *)
Definition vid_view_body (n k : Z) (s : Player.t) : Player.t :=
  if negb (Player.playing s =? 0) then
    let s := set_i (MIN (Int32.add (Player.i s) 1) (Int32.sub n 1)) s in
    let s := show s in
    if (k =? 32) || (Player.i s =? Int32.sub n 1) then set_playing 0 s else s
  else
    if k =? 32 then set_playing 1 s
    else if (k =? 27) || (k =? 1048603) then destroy s
    else if k =? 8 then show (set_i 0 s)
    else if (k =? 65288) || (k =? 1113937) then
      show (set_i (MAX (Int32.sub (Player.i s) 1) 0) s)
    else if (k =? 65363) || (k =? 1113939) then
      show (set_i (MIN (Int32.add (Player.i s) 1) (Int32.sub n 1)) s)
    else if (k =? 65365) || (k =? 1113941) then
      show (set_i (MAX (Int32.sub (Player.i s) 10) 0) s)
    else if (k =? 65366) || (k =? 1113942) then
      show (set_i (MIN (Int32.add (Player.i s) 10) (Int32.sub n 1)) s)
    else s.

(** [while( ! win_closed( win_name ) ) { ... }], for the keys that
    [cvWaitKey] returns one after the other until the user closes the
    window: [win_closed] holds once the function has destroyed the
    window, and when the user has closed it, after the last key. *)
Fixpoint vid_view_loop (n : Z) (keys : list Z) (s : Player.t) : Player.t :=
  match keys with
  | [] => s
  | k :: keys' =>
      if Player.destroyed s then s else vid_view_loop n keys' (vid_view_body n k s)
  end.

(** [void vid_view(IplImage** imgs, int n, char* win_name)] *)
Definition vid_view (n : Z) (keys : list Z) : Player.t :=
  let s := Player.mk 0 0 [] false in
  let s := show s in
  vid_view_loop n keys s.

(** What the pinwheel prints in its state [c mod 4]. *)
Definition spin (c : Z) : list Console.event :=
  [Console.Print Console.stdout
     [Byte.x08; Byte.x08;
      nth (Z.to_nat (c mod 4)) [Byte.x7c; Byte.x2f; Byte.x2d; Byte.x5c] Byte.x00;
      Byte.x20];
   Console.Flush Console.stderr].

(** The index [i] and every index shown so far are positions of the
    array [imgs] of [n] images. *)
Definition in_bounds (n : Z) (s : Player.t) : Prop :=
  0 <= Player.i s < n /\ Forall (fun j => 0 <= j < n) (Player.shown s).

(** The images shown in [s'] are those shown in [s], and then some
    more. *)
Definition shows_more (s s' : Player.t) : Prop :=
  exists rest, Player.shown s' = Player.shown s ++ rest.

(** * Part II: the properties *)

(** ** 32-bit arithmetic and rounding *)

Lemma wrap_in_range (z : Z) : Int32.in_range z -> Int32.wrap z = z.
Proof.
  unfold Int32.in_range, Int32.min_int, Int32.max_int, Int32.wrap. intros Hz.
  rewrite Z.mod_small; lia.
Qed.

Lemma wrap_range (z : Z) : Int32.in_range (Int32.wrap z).
Proof.
  unfold Int32.in_range, Int32.min_int, Int32.max_int, Int32.wrap.
  pose proof (Z.mod_pos_bound (z + 2 ^ 31) (2 ^ 32) ltac:(lia)). lia.
Qed.

Lemma cvRound_nonneg (x : Q) : (0 <= x)%Q -> 0 <= cvRound x.
Proof.
  intros Hx. unfold cvRound.
  assert (Hf : 0 <= Qfloor x).
  { rewrite <- (Qfloor_Z 0). apply Qfloor_resp_le. exact Hx. }
  destruct (x - inject_Z (Qfloor x) ?= 1 # 2)%Q; [destruct (Z.even _) | | ]; lia.
Qed.

Lemma padding_nonneg (tws : Q) (n : Z) : (0 <= tws)%Q -> 0 <= n -> 0 <= padding tws n.
Proof.
  intros Ht Hn. apply cvRound_nonneg. apply Qmult_le_0_compat; [exact Ht | ].
  change 0%Q with (inject_Z 0). rewrite <- Zle_Qle. exact Hn.
Qed.

(** ** Footprints of statements *)

Lemma reads_only_cells (rt tw : loc) (A : Type) (e : store -> A) (st : store) :
  reads_only rt tw e -> e st = e (cells tw (st rt) (st tw)).
Proof.
  intros He. apply He; unfold cells.
  - destruct (Nat.eqb rt tw) eqn:E; [apply Nat.eqb_eq in E; now subst | reflexivity].
  - now rewrite Nat.eqb_refl.
Qed.

Lemma footprint_assign (rt tw : loc) (setter : Z -> Rect -> Rect) (e : store -> Z) :
  reads_only rt tw e ->
  footprint rt tw (assign tw setter e) (fun a b => setter (e (cells tw a b)) b).
Proof.
  intros He st l. unfold assign, upd.
  now rewrite <- (reads_only_cells rt tw _ e st He).
Qed.

Lemma footprint_seq (rt tw : loc) (c1 c2 : cmd) (g1 g2 : Rect -> Rect -> Rect) :
  footprint rt tw c1 g1 -> footprint rt tw c2 g2 ->
  footprint rt tw (c1 ;; c2)
    (fun a b => g2 (if Nat.eqb rt tw then g1 a b else a) (g1 a b)).
Proof.
  intros H1 H2 st l. unfold seq.
  rewrite H2, !H1, Nat.eqb_refl.
  destruct (Nat.eqb l tw); reflexivity.
Qed.

Lemma footprint_ifthen (rt tw : loc) (b : store -> bool) (c : cmd)
  (g : Rect -> Rect -> Rect) :
  reads_only rt tw b -> footprint rt tw c g ->
  footprint rt tw (ifthen b c)
    (fun a w => if b (cells tw a w) then g a w else w).
Proof.
  intros Hb Hc st l. unfold ifthen.
  rewrite <- (reads_only_cells rt tw _ b st Hb).
  destruct (b st).
  - apply Hc.
  - destruct (Nat.eqb l tw) eqn:E; [apply Nat.eqb_eq in E; now subst | reflexivity].
Qed.

Lemma footprint_assoc (rt tw : loc) (c1 c2 c3 : cmd) (g : Rect -> Rect -> Rect) :
  footprint rt tw ((c1 ;; c2) ;; c3) g -> footprint rt tw (c1 ;; c2 ;; c3) g.
Proof. intros H. exact H. Qed.

(** A statement that only looks at [*tw] after one with footprint [g1]. *)
Lemma footprint_seq_local (rt tw : loc) (c1 c2 : cmd)
  (g1 : Rect -> Rect -> Rect) (k : Rect -> Rect) :
  footprint rt tw c1 g1 -> footprint tw tw c2 (fun _ w => k w) ->
  footprint rt tw (c1 ;; c2) (fun a b => k (g1 a b)).
Proof.
  intros H1 H2 st l. unfold seq.
  rewrite H2, !H1, Nat.eqb_refl.
  destruct (Nat.eqb l tw); reflexivity.
Qed.

(** Only the values of [g] at rectangles a store can hold matter. *)
Lemma footprint_ext (rt tw : loc) (c : cmd) (g g' : Rect -> Rect -> Rect) :
  footprint rt tw c g ->
  (forall a b, (rt = tw -> a = b) -> g a b = g' a b) ->
  footprint rt tw c g'.
Proof.
  intros H E st l. rewrite H.
  destruct (Nat.eqb l tw); [ | reflexivity].
  apply E. now intros ->.
Qed.

(** Discharges [reads_only] for an expression written with [st rt] and [st tw]. *)
Ltac reads_only_tac :=
  let st := fresh "st" in let st' := fresh "st'" in
  let H1 := fresh in let H2 := fresh in
  intros st st' H1 H2; cbv beta; rewrite ?H1, ?H2; reflexivity.

Ltac footprint_tac :=
  repeat first
    [ eapply footprint_seq
    | eapply footprint_ifthen; [reads_only_tac | ]
    | eapply footprint_assign; reads_only_tac ].

(** ** The tracking window *)

Ltac rect_simpl :=
  cbn [upper left width height set_upper set_left set_width set_height] in *.

Ltac clip_footprint :=
  eapply footprint_ext; [footprint_tac | ];
  intros a b Hab; rewrite (Hab eq_refl); clear Hab a;
  unfold cells; rewrite !Nat.eqb_refl; destruct b; rect_simpl;
  repeat match goal with
         | |- context [if ?c then _ else _] => destruct c; rect_simpl
         end; reflexivity.

Ltac unwrap :=
  repeat match goal with
         | |- context [Int32.wrap ?x] =>
             rewrite (wrap_in_range x)
               by (unfold Int32.in_range, Int32.min_int, Int32.max_int; lia)
         end.

Ltac split_if :=
  match goal with
  | |- context [if ?a <? ?b then _ else _] => destruct (Z.ltb_spec a b)
  | |- context [if ?a >? ?b then _ else _] =>
      rewrite (Z.gtb_ltb a b); destruct (Z.ltb_spec b a)
  end.

Section TrackingWindowFacts.

Variable tws : Q.

Lemma clip_upper_footprint (tw : loc) :
  footprint tw tw
    (ifthen (fun st => upper (st tw) <? 0)
       (assign tw set_height (fun st =>
          Int32.sub (height (st tw)) (Int32.abs (upper (st tw)))) ;;
        assign tw set_upper (fun _ => 0)))
    (fun _ w => clip_upper w).
Proof. unfold clip_upper. clip_footprint. Qed.

Lemma clip_lower_footprint (tw : loc) (img : Rect) :
  footprint tw tw
    (ifthen (fun st => Int32.add (upper (st tw)) (height (st tw)) >? height img)
       (assign tw set_height (fun st =>
          Int32.sub (height (st tw))
            (Int32.abs
               (Int32.sub (Int32.add (upper (st tw)) (height (st tw)))
                          (height img))))))
    (fun _ w => clip_lower img w).
Proof. unfold clip_lower. clip_footprint. Qed.

Lemma clip_left_footprint (tw : loc) :
  footprint tw tw
    (ifthen (fun st => left (st tw) <? 0)
       (assign tw set_width (fun st =>
          Int32.sub (width (st tw)) (Int32.abs (left (st tw)))) ;;
        assign tw set_left (fun _ => 0)))
    (fun _ w => clip_left w).
Proof. unfold clip_left. clip_footprint. Qed.

Lemma clip_right_footprint (tw : loc) (img : Rect) :
  footprint tw tw
    (ifthen (fun st => Int32.add (left (st tw)) (width (st tw)) >? width img)
       (assign tw set_width (fun st =>
          Int32.sub (width (st tw))
            (Int32.abs
               (Int32.sub (Int32.add (left (st tw)) (width (st tw)))
                          (width img))))))
    (fun _ w => clip_right img w).
Proof. unfold clip_right. clip_footprint. Qed.

(** The whole body reads [*trackingRect] and [*TrackingWindow] and
    writes [*TrackingWindow]; what it writes is [window_value] of the
    target as it was at entry, also when both names denote one object. *)
Lemma ModifyTrackingWindows_footprint (rt tw : loc) (img : Rect) :
  footprint rt tw (ModifyTrackingWindows tws rt tw img)
    (fun t _ => window_value tws t img).
Proof.
  unfold ModifyTrackingWindows. repeat apply footprint_assoc.
  eapply footprint_ext.
  - eapply footprint_seq_local; [ | apply clip_right_footprint].
    eapply footprint_seq_local; [ | apply clip_left_footprint].
    eapply footprint_seq_local; [ | apply clip_lower_footprint].
    eapply footprint_seq_local; [ | apply clip_upper_footprint].
    footprint_tac.
  - intros a b Hab. cbv beta. unfold window_value. do 4 f_equal.
    unfold cells, padded.
    destruct (Nat.eqb rt tw) eqn:E.
    + apply Nat.eqb_eq in E. rewrite <- (Hab E). destruct a. reflexivity.
    + destruct a, b. reflexivity.
Qed.

Lemma ModifyTrackingWindows_store (rt tw : loc) (img : Rect) (st : store) (l : loc) :
  ModifyTrackingWindows tws rt tw img st l =
  if Nat.eqb l tw then window_value tws (st rt) img else st l.
Proof. apply ModifyTrackingWindows_footprint. Qed.

Lemma window_value_axes (t img : Rect) :
  window_value tws t img =
  let v := axis_value (height img) (upper t) (height t) (padding tws (height t)) in
  let h := axis_value (width img) (left t) (width t) (padding tws (width t)) in
  {| upper := fst v; left := fst h; width := snd h; height := snd v |}.
Proof.
  destruct t as [u l w h].
  unfold window_value, axis_value, padded; rect_simpl.
  generalize (padding tws w) (padding tws h). intros q p. cbn [fst snd].
  unfold clip_upper at 1; rect_simpl.
  destruct (Int32.sub u p <? 0); rect_simpl;
    (unfold clip_lower at 1; rect_simpl;
     destruct (_ >? height img); rect_simpl;
     unfold clip_left at 1; rect_simpl;
     destruct (Int32.sub l q <? 0); rect_simpl;
     unfold clip_right at 1; rect_simpl;
     destruct (_ >? width img); rect_simpl; reflexivity).
Qed.

Lemma axis_value_span (bound start extent p : Z) :
  small start -> small extent -> small p -> small bound ->
  axis_value bound start extent p =
  clamp_high bound (clamp_low (pad_span p (start, extent))).
Proof.
  unfold small, axis_value, clamp_high, clamp_low, pad_span. intros Hs He Hp Hb.
  unfold Int32.add, Int32.sub, Int32.mul, Int32.abs. cbn [fst snd].
  rewrite (wrap_in_range (start - p))
    by (unfold Int32.in_range, Int32.min_int, Int32.max_int; lia).
  rewrite (wrap_in_range (2 * p))
    by (unfold Int32.in_range, Int32.min_int, Int32.max_int; lia).
  rewrite (wrap_in_range (extent + 2 * p))
    by (unfold Int32.in_range, Int32.min_int, Int32.max_int; lia).
  destruct (Z.ltb_spec (start - p) 0) as [Hneg | Hpos]; cbn [fst snd]; unwrap.
  - rewrite !Z.gtb_ltb.
    destruct (Z.ltb_spec bound (0 + (extent + 2 * p - Z.abs (start - p)))) as [Hhi | Hlo];
      destruct (Z.ltb_spec bound (0 + (extent + 2 * p - - (start - p)))); try lia;
      unwrap; f_equal; lia.
  - rewrite !Z.gtb_ltb.
    destruct (Z.ltb_spec bound (start - p + (extent + 2 * p))); unwrap;
      f_equal; lia.
Qed.

(** Within range, the statements compute the padded and clamped window. *)
Lemma window_value_ComputeWindow (t img : Rect) :
  no_overflow tws t img -> window_value tws t img = ComputeWindow tws t img.
Proof.
  intros (Hu & Hl & Hw & Hh & Hpw & Hph & Hiw & Hih).
  rewrite window_value_axes. unfold ComputeWindow, window_span. cbv zeta.
  now rewrite !axis_value_span.
Qed.

Lemma window_span_within (bound start extent : Z) :
  let s := window_span tws bound start extent in
  0 <= fst s /\ fst s + snd s <= bound.
Proof.
  unfold window_span, clamp_high, clamp_low, pad_span. cbn [fst snd].
  generalize (padding tws extent). intros p.
  destruct (Z.ltb_spec (start - p) 0); cbn [fst snd];
    rewrite Z.gtb_ltb;
    match goal with |- context [?a <? ?b] => destruct (Z.ltb_spec a b) end;
    cbn [fst snd]; lia.
Qed.

Lemma window_span_nonneg_iff (bound start extent : Z) :
  0 <= padding tws extent -> 0 <= extent ->
  (0 <= snd (window_span tws bound start extent) <->
   axis_meets (padding tws extent) start extent bound).
Proof.
  unfold window_span, clamp_high, clamp_low, pad_span, axis_meets. cbn [fst snd].
  generalize (padding tws extent). intros p Hp He.
  destruct (Z.ltb_spec (start - p) 0); cbn [fst snd];
    rewrite Z.gtb_ltb;
    match goal with |- context [?a <? ?b] => destruct (Z.ltb_spec a b) end;
    cbn [fst snd]; lia.
Qed.

Lemma window_span_fixed (bound start extent : Z) :
  0 <= start -> start + extent <= bound ->
  (window_span tws bound start extent = (start, extent) <->
   axis_fixed (padding tws extent) start extent bound).
Proof.
  unfold window_span, clamp_high, clamp_low, pad_span, axis_fixed, span. cbn [fst snd].
  generalize (padding tws extent). intros p Hs Hb.
  destruct (Z.ltb_spec (start - p) 0); cbn [fst snd];
    rewrite Z.gtb_ltb;
    match goal with |- context [?a <? ?b] => destruct (Z.ltb_spec a b) end;
    cbn [fst snd]; rewrite pair_equal_spec; lia.
Qed.

(** C2.  Whatever the target rectangle and the image bounds, as long as
    the [int] arithmetic stays in range, the rectangle that
    [ModifyTrackingWindows] leaves in [*TrackingWindow] is
    [ComputeWindow]'s: the target extended on each side by the rounded
    padding [cvRound(TRACKING_WINDOW_SIZE * extent)] of its axis, then
    clamped; a negative top or left becomes 0 and the height or width
    shrinks by the overflow, and a bottom or right beyond the image
    shrinks the height or width by the overflow. *)
Theorem ModifyTrackingWindows_pads_then_clamps
  (trackingRect TrackingWindow : loc) (WholeImageSize : Rect) (st : store) :
  no_overflow tws (st trackingRect) WholeImageSize ->
  ModifyTrackingWindows tws trackingRect TrackingWindow WholeImageSize st TrackingWindow =
  ComputeWindow tws (st trackingRect) WholeImageSize.
Proof.
  intros H. rewrite ModifyTrackingWindows_store, Nat.eqb_refl.
  now apply window_value_ComputeWindow.
Qed.

(** C3, as the code has it.  As long as the [int] arithmetic stays in
    range, the window has top >= 0, left >= 0, top + height <=
    imageHeight and left + width <= imageWidth.  For a padding fraction
    that is not negative and a target of non-negative width, the width
    of the window is >= 0 exactly when the padded target and the image
    have a column in common; and so for the height and the rows. *)
Theorem window_within_image
  (trackingRect TrackingWindow : loc) (WholeImageSize : Rect) (st : store) :
  no_overflow tws (st trackingRect) WholeImageSize ->
  let t := st trackingRect in
  let w := ModifyTrackingWindows tws trackingRect TrackingWindow WholeImageSize st
             TrackingWindow in
  0 <= upper w /\ 0 <= left w /\
  upper w + height w <= height WholeImageSize /\
  left w + width w <= width WholeImageSize /\
  ((0 <= tws)%Q -> 0 <= width t ->
   (0 <= width w <->
    axis_meets (padding tws (width t)) (left t) (width t) (width WholeImageSize))) /\
  ((0 <= tws)%Q -> 0 <= height t ->
   (0 <= height w <->
    axis_meets (padding tws (height t)) (upper t) (height t) (height WholeImageSize))).
Proof.
  intros H. cbv zeta. rewrite ModifyTrackingWindows_store, Nat.eqb_refl.
  rewrite window_value_ComputeWindow by exact H.
  unfold ComputeWindow. cbn [upper left width height].
  pose proof (window_span_within (height WholeImageSize)
                (upper (st trackingRect)) (height (st trackingRect))) as Hv.
  pose proof (window_span_within (width WholeImageSize)
                (left (st trackingRect)) (width (st trackingRect))) as Hh.
  cbv zeta in Hv, Hh. destruct Hv as [Hv1 Hv2], Hh as [Hh1 Hh2].
  split; [exact Hv1 | ]. split; [exact Hh1 | ].
  split; [exact Hv2 | ]. split; [exact Hh2 | ].
  split; intros Ht He; apply window_span_nonneg_iff; trivial; now apply padding_nonneg.
Qed.

(** C8, as the code has it.  Let [w] be the window a call of
    [ModifyTrackingWindows] produced.  A second call, with [w] as its
    target and the same image bounds, gives [w] again exactly when, on
    each axis, the rounded padding of [w]'s extent is 0, or is positive
    while [w] starts at 0 and spans the whole image. *)
Theorem window_fixed_point_iff
  (trackingRect TrackingWindow TrackingWindow' : loc) (WholeImageSize : Rect)
  (st : store) :
  let st1 := ModifyTrackingWindows tws trackingRect TrackingWindow WholeImageSize st in
  let w := st1 TrackingWindow in
  no_overflow tws (st trackingRect) WholeImageSize ->
  no_overflow tws w WholeImageSize ->
  (ModifyTrackingWindows tws TrackingWindow TrackingWindow' WholeImageSize st1
     TrackingWindow' = w <->
   axis_fixed (padding tws (height w)) (upper w) (height w) (height WholeImageSize) /\
   axis_fixed (padding tws (width w)) (left w) (width w) (width WholeImageSize)).
Proof.
  cbv zeta. intros H1 H2.
  rewrite (ModifyTrackingWindows_store TrackingWindow TrackingWindow'), Nat.eqb_refl.
  rewrite window_value_ComputeWindow by exact H2.
  revert H2. rewrite ModifyTrackingWindows_store, Nat.eqb_refl.
  rewrite window_value_ComputeWindow by exact H1. intros _.
  pose proof (window_span_within (height WholeImageSize)
                (upper (st trackingRect)) (height (st trackingRect))) as Hv.
  pose proof (window_span_within (width WholeImageSize)
                (left (st trackingRect)) (width (st trackingRect))) as Hh.
  cbv zeta in Hv, Hh.
  set (w := ComputeWindow tws (st trackingRect) WholeImageSize).
  assert (Wv : 0 <= upper w /\ upper w + height w <= height WholeImageSize) by exact Hv.
  assert (Wh : 0 <= left w /\ left w + width w <= width WholeImageSize) by exact Hh.
  clearbody w. clear Hv Hh H1.
  rewrite <- (window_span_fixed (height WholeImageSize)) by tauto.
  rewrite <- (window_span_fixed (width WholeImageSize)) by tauto.
  unfold ComputeWindow. destruct w as [u l wd ht]. cbn [upper left width height].
  destruct (window_span tws (height WholeImageSize) u ht) as [u' ht'].
  destruct (window_span tws (width WholeImageSize) l wd) as [l' wd'].
  cbn [fst snd]. split.
  - intros E. injection E as -> -> -> ->. split; reflexivity.
  - intros [E1 E2]. injection E1 as -> ->. injection E2 as -> ->. reflexivity.
Qed.

(** C9, as the code has it.  A call writes the object [TrackingWindow]
    points to and no other: every other object of the store, the image
    rectangle of the caller among them, is as it was, and so is the
    target rectangle when it is not that same object. *)
Theorem ModifyTrackingWindows_frame
  (trackingRect TrackingWindow : loc) (WholeImageSize : Rect) (st : store) :
  (forall l : loc, l <> TrackingWindow ->
     ModifyTrackingWindows tws trackingRect TrackingWindow WholeImageSize st l = st l) /\
  (trackingRect <> TrackingWindow ->
     ModifyTrackingWindows tws trackingRect TrackingWindow WholeImageSize st trackingRect =
     st trackingRect).
Proof.
  assert (F : forall l : loc, l <> TrackingWindow ->
     ModifyTrackingWindows tws trackingRect TrackingWindow WholeImageSize st l = st l).
  { intros l Hl. rewrite ModifyTrackingWindows_store.
    apply Nat.eqb_neq in Hl. now rewrite Hl. }
  split; [exact F | apply F].
Qed.

End TrackingWindowFacts.

(** X21.  A target that starts below the padded image gets a window
    of negative height, whatever the padding fraction is. *)
Lemma window_height_negative_below_image
  (tws : Q) (trackingRect TrackingWindow : loc) (WholeImageSize : Rect) (st : store) :
  no_overflow tws (st trackingRect) WholeImageSize ->
  0 <= height WholeImageSize ->
  height WholeImageSize <
    upper (st trackingRect) - padding tws (height (st trackingRect)) ->
  height (ModifyTrackingWindows tws trackingRect TrackingWindow WholeImageSize st
            TrackingWindow) < 0.
Proof.
  intros H Himg Hbelow. rewrite ModifyTrackingWindows_store, Nat.eqb_refl.
  rewrite window_value_ComputeWindow by exact H.
  unfold ComputeWindow, window_span, clamp_high, clamp_low, pad_span.
  cbn [upper left width height fst snd].
  revert Hbelow. generalize (padding tws (height (st trackingRect))). intros p Hbelow.
  destruct (Z.ltb_spec (upper (st trackingRect) - p) 0); cbn [fst snd]; [lia | ].
  rewrite Z.gtb_ltb.
  match goal with |- context [?a <? ?b] => destruct (Z.ltb_spec a b) end;
    cbn [fst snd]; lia.
Qed.

(** The window the constructor stores ends where the target ends: it is
    extended on the top and on the left only, and is not clamped. *)
Lemma constructor_window_edges
  (tws : Q) (IplImage kd_node : Type)
  (kdtree_build : list SIFT_feature_unit.t -> Z -> kd_node)
  (Sfeat : list SIFT_feature_unit.t) (preF : IplImage) (Sfeat_num_fp : Z)
  (trackingRect img : Rect) :
  no_overflow tws trackingRect img ->
  let w := TrackingWindow IplImage kd_node
             (SIFT_opt_tracker_new tws IplImage kd_node kdtree_build
                Sfeat preF Sfeat_num_fp trackingRect) in
  upper w = upper trackingRect - padding tws (height trackingRect) /\
  left w = left trackingRect - padding tws (width trackingRect) /\
  left w + width w = left trackingRect + width trackingRect /\
  upper w + height w = upper trackingRect + height trackingRect.
Proof.
  unfold no_overflow, small, padding. intros (Hu & Hl & Hw & Hh & Hpw & Hph & _).
  cbv zeta. unfold SIFT_opt_tracker_new. cbn [TrackingWindow upper left width height].
  unfold Int32.add, Int32.sub. unwrap. lia.
Qed.

(** X22.  Where [ModifyTrackingWindows] has nothing to clamp and the
    rounded padding of the width is not 0, the constructor's window is
    not the one [ModifyTrackingWindows] computes. *)
Lemma constructor_window_narrower_when_padded
  (tws : Q) (IplImage kd_node : Type)
  (kdtree_build : list SIFT_feature_unit.t -> Z -> kd_node)
  (Sfeat : list SIFT_feature_unit.t) (preF : IplImage) (Sfeat_num_fp : Z)
  (rt tw : loc) (img : Rect) (st : store) :
  no_overflow tws (st rt) img ->
  0 <= left (st rt) - padding tws (width (st rt)) ->
  left (st rt) + width (st rt) + padding tws (width (st rt)) <= width img ->
  padding tws (width (st rt)) <> 0 ->
  TrackingWindow IplImage kd_node
    (SIFT_opt_tracker_new tws IplImage kd_node kdtree_build
       Sfeat preF Sfeat_num_fp (st rt)) <>
  ModifyTrackingWindows tws rt tw img st tw.
Proof.
  intros H Hlo Hhi Hp E.
  destruct (constructor_window_edges tws IplImage kd_node kdtree_build
              Sfeat preF Sfeat_num_fp (st rt) img H) as (_ & El & Er & _).
  rewrite E, ModifyTrackingWindows_store, Nat.eqb_refl in El, Er.
  rewrite window_value_ComputeWindow in El, Er by exact H.
  revert El Er. unfold ComputeWindow, window_span, clamp_high, clamp_low, pad_span.
  cbn [upper left width height fst snd].
  destruct (Z.ltb_spec (left (st rt) - padding tws (width (st rt))) 0); [lia | ].
  cbn [fst snd]. rewrite Z.gtb_ltb.
  match goal with |- context [?a <? ?b] => destruct (Z.ltb_spec a b) end;
    cbn [fst snd]; lia.
Qed.

(** ** The tracking window on concrete calls *)

(** In these calls [TRACKING_WINDOW_SIZE] is 1/2. *)

Lemma ModifyTrackingWindows_pads_then_clamps_example :
  ModifyTrackingWindows (1 # 2) 0%nat 1%nat image_100 (store_with (mkRect 2 70 40 10)) 1%nat =
  ComputeWindow (1 # 2) (mkRect 2 70 40 10) image_100.
Proof.
  apply (ModifyTrackingWindows_pads_then_clamps (1 # 2) 0%nat 1%nat image_100
           (store_with (mkRect 2 70 40 10))).
  unfold no_overflow, small. vm_compute. intuition discriminate.
Defined.

(** A target below the image: the window gets a negative height. *)
Lemma window_negative_height :
  ~ (0 <= width (ModifyTrackingWindows (1 # 2) 0%nat 1%nat image_100
                   (store_with (mkRect 150 10 10 10)) 1%nat) /\
     0 <= height (ModifyTrackingWindows (1 # 2) 0%nat 1%nat image_100
                    (store_with (mkRect 150 10 10 10)) 1%nat) /\
     0 <= upper (ModifyTrackingWindows (1 # 2) 0%nat 1%nat image_100
                   (store_with (mkRect 150 10 10 10)) 1%nat) /\
     0 <= left (ModifyTrackingWindows (1 # 2) 0%nat 1%nat image_100
                  (store_with (mkRect 150 10 10 10)) 1%nat) /\
     upper (ModifyTrackingWindows (1 # 2) 0%nat 1%nat image_100
              (store_with (mkRect 150 10 10 10)) 1%nat) +
     height (ModifyTrackingWindows (1 # 2) 0%nat 1%nat image_100
               (store_with (mkRect 150 10 10 10)) 1%nat) <= height image_100 /\
     left (ModifyTrackingWindows (1 # 2) 0%nat 1%nat image_100
             (store_with (mkRect 150 10 10 10)) 1%nat) +
     width (ModifyTrackingWindows (1 # 2) 0%nat 1%nat image_100
              (store_with (mkRect 150 10 10 10)) 1%nat) <= width image_100).
Proof.
  assert (E : ModifyTrackingWindows (1 # 2) 0%nat 1%nat image_100
                (store_with (mkRect 150 10 10 10)) 1%nat = mkRect 145 5 20 (-45))
    by (vm_compute; reflexivity).
  rewrite E. cbn [upper left width height]. lia.
Qed.

(** A target that the right border of the image cuts: the padded target
    meets the image on both axes. *)
Lemma window_within_image_example :
  let w := ModifyTrackingWindows (1 # 2) 0%nat 1%nat image_100
             (store_with (mkRect 2 70 40 10)) 1%nat in
  0 <= upper w /\ 0 <= left w /\
  upper w + height w <= height image_100 /\
  left w + width w <= width image_100 /\
  0 <= width w /\ 0 <= height w.
Proof.
  destruct (window_within_image (1 # 2) 0%nat 1%nat image_100
              (store_with (mkRect 2 70 40 10)))
    as (H1 & H2 & H3 & H4 & H5 & H6).
  - unfold no_overflow, small. vm_compute. intuition discriminate.
  - assert (Ht : (0 <= 1 # 2)%Q) by (unfold Qle; cbn; lia).
    assert (Hw : 0 <= width (store_with (mkRect 2 70 40 10) 0%nat)) by (cbn; lia).
    assert (Hh : 0 <= height (store_with (mkRect 2 70 40 10) 0%nat)) by (cbn; lia).
    destruct (H5 Ht Hw) as [_ W]. destruct (H6 Ht Hh) as [_ V].
    split; [exact H1 | ]. split; [exact H2 | ]. split; [exact H3 | ]. split; [exact H4 | ].
    split.
    + apply W. unfold axis_meets. vm_compute. intuition discriminate.
    + apply V. unfold axis_meets. vm_compute. intuition discriminate.
Defined.

(** A window that a second call enlarges. *)
Lemma window_not_fixed_point :
  ModifyTrackingWindows (1 # 2) 1%nat 2%nat image_100
    (ModifyTrackingWindows (1 # 2) 0%nat 1%nat image_100
       (store_with (mkRect 30 30 20 20))) 2%nat <>
  ModifyTrackingWindows (1 # 2) 0%nat 1%nat image_100
    (store_with (mkRect 30 30 20 20)) 1%nat.
Proof. vm_compute. discriminate. Qed.

(** The whole image as target: its window is the whole image, and is a
    fixed point. *)
Lemma window_fixed_point_iff_example :
  ModifyTrackingWindows (1 # 2) 1%nat 2%nat image_100
    (ModifyTrackingWindows (1 # 2) 0%nat 1%nat image_100 (store_with image_100)) 2%nat =
  ModifyTrackingWindows (1 # 2) 0%nat 1%nat image_100 (store_with image_100) 1%nat.
Proof.
  apply (window_fixed_point_iff (1 # 2) 0%nat 1%nat 2%nat image_100 (store_with image_100)).
  - unfold no_overflow, small. vm_compute. intuition discriminate.
  - unfold no_overflow, small. vm_compute. intuition discriminate.
  - unfold axis_fixed. vm_compute. intuition congruence.
Defined.

(** A call whose target and window are one object overwrites the target. *)
Lemma in_place_call_overwrites_target :
  ModifyTrackingWindows (1 # 2) 0%nat 0%nat image_100
    (store_with (mkRect 30 30 20 20)) 0%nat <>
  store_with (mkRect 30 30 20 20) 0%nat.
Proof. vm_compute. discriminate. Qed.

Lemma ModifyTrackingWindows_frame_example :
  ModifyTrackingWindows (1 # 2) 0%nat 1%nat image_100
    (store_with (mkRect 30 30 20 20)) 0%nat = mkRect 30 30 20 20 /\
  ModifyTrackingWindows (1 # 2) 0%nat 1%nat image_100
    (store_with (mkRect 30 30 20 20)) 5%nat = mkRect 0 0 0 0.
Proof.
  destruct (ModifyTrackingWindows_frame (1 # 2) 0%nat 1%nat image_100
              (store_with (mkRect 30 30 20 20))) as [F T].
  split.
  - apply T. discriminate.
  - apply (F 5%nat). discriminate.
Defined.

(** C4.  The window the constructor stores is not the window
    [ModifyTrackingWindows] computes for the same rectangle: for the
    target (30, 30, 20, 20) in a 100 x 100 image the constructor stores
    (20, 20, 30, 30), while [ModifyTrackingWindows] computes
    (20, 20, 40, 40). *)
Theorem constructor_window_differs :
  TrackingWindow unit unit
    (SIFT_opt_tracker_new (1 # 2) unit unit (fun _ _ => tt)
       [SIFT_feature_unit.mk 4 7 0 []] tt 1 (mkRect 30 30 20 20)) =
  mkRect 20 20 30 30 /\
  ModifyTrackingWindows (1 # 2) 0%nat 1%nat image_100
    (store_with (mkRect 30 30 20 20)) 1%nat = mkRect 20 20 40 40.
Proof. split; vm_compute; reflexivity. Qed.


(** ** Facts about counted loops and sums *)

Lemma for_loop_fold (S : Type) (body : Z -> S -> S) (hi : Z) (fuel : nat) :
  forall (i : Z) (s : S), Z.of_nat fuel = Z.max 0 (hi - i) ->
  for_loop fuel i hi body s = fold_left (fun s i => body i s) (Zrange_from i fuel) s.
Proof.
  induction fuel as [ | fuel IH]; intros i s Hf; [reflexivity | ].
  cbn [for_loop Zrange_from fold_left].
  destruct (Z.ltb_spec i hi); [ | lia].
  apply IH. lia.
Qed.

(** A counted loop runs its body on [lo], ..., [hi - 1] in turn. *)
Lemma for_fold (S : Type) (lo hi : Z) (body : Z -> S -> S) (s : S) :
  for_ lo hi body s = fold_left (fun s i => body i s) (Zrange lo hi) s.
Proof. unfold for_, Zrange. apply for_loop_fold. lia. Qed.

Lemma In_Zrange_from (n : nat) :
  forall lo z, In z (Zrange_from lo n) <-> lo <= z < lo + Z.of_nat n.
Proof.
  induction n as [ | n IH]; intros lo z; cbn [Zrange_from In].
  - lia.
  - rewrite IH. lia.
Qed.

Lemma In_Zrange (lo hi z : Z) : In z (Zrange lo hi) <-> lo <= z < hi.
Proof. unfold Zrange. rewrite In_Zrange_from. lia. Qed.

Lemma NoDup_Zrange (lo hi : Z) : NoDup (Zrange lo hi).
Proof.
  unfold Zrange. generalize (Z.to_nat (hi - lo)) as n. intros n. revert lo.
  induction n as [ | n IH]; intros lo; cbn [Zrange_from]; constructor.
  - rewrite In_Zrange_from. lia.
  - apply IH.
Qed.

Lemma count_occ_Zrange (lo hi z : Z) :
  count_occ Z.eq_dec (Zrange lo hi) z =
  if (lo <=? z) && (z <? hi) then 1%nat else 0%nat.
Proof.
  destruct (Z.leb_spec lo z), (Z.ltb_spec z hi); cbn [andb];
    try (apply count_occ_not_In; rewrite In_Zrange; lia).
  apply NoDup_count_occ'; [apply NoDup_Zrange | apply In_Zrange; lia].
Qed.

Lemma count_occ_pairs (a b : Z) (l' : list Z) (x : Z) :
  count_occ Zpair_eq_dec (map (pair x) l') (a, b) =
  if Z.eq_dec x a then count_occ Z.eq_dec l' b else 0%nat.
Proof.
  induction l' as [ | y l' IH]; cbn [map count_occ].
  - now destruct (Z.eq_dec x a).
  - rewrite IH.
    destruct (Zpair_eq_dec (x, y) (a, b)) as [E | N], (Z.eq_dec x a) as [Ex | Nx],
      (Z.eq_dec y b) as [Ey | Ny]; try reflexivity; try congruence.
Qed.

Lemma count_occ_list_prod (l l' : list Z) (a b : Z) :
  count_occ Zpair_eq_dec (list_prod l l') (a, b) =
  (count_occ Z.eq_dec l a * count_occ Z.eq_dec l' b)%nat.
Proof.
  induction l as [ | x l IH]; cbn [list_prod count_occ]; [reflexivity | ].
  rewrite count_occ_app, IH, count_occ_pairs.
  destruct (Z.eq_dec x a); lia.
Qed.

Lemma fold_left_map (S A B : Type) (f : S -> B -> S) (h : A -> B) (l : list A) :
  forall s, fold_left f (map h l) s = fold_left (fun s x => f s (h x)) l s.
Proof. induction l as [ | x l IH]; intros s; cbn [map fold_left]; [reflexivity | apply IH]. Qed.

Lemma fold_left_list_prod (S : Type) (f : Z -> Z -> S -> S) (l l' : list Z) :
  forall s : S,
  fold_left (fun s i => fold_left (fun s j => f i j s) l' s) l s =
  fold_left (fun s o => f (fst o) (snd o) s) (list_prod l l') s.
Proof.
  induction l as [ | x l IH]; intros s; cbn [list_prod fold_left]; [reflexivity | ].
  now rewrite fold_left_app, IH, fold_left_map.
Qed.

Lemma fold_left_ext_in (S A : Type) (f g : S -> A -> S) (l : list A) :
  (forall x, In x l -> forall s, f s x = g s x) ->
  forall s, fold_left f l s = fold_left g l s.
Proof.
  induction l as [ | x l IH]; intros H s; cbn [fold_left]; [reflexivity | ].
  rewrite (H x (or_introl eq_refl)). apply IH.
  intros y Hy. apply H. now right.
Qed.

Lemma map_Zrange_from_shift (A : Type) (f g : Z -> A) (n : nat) :
  forall k, (forall i, k <= i -> f (i + 1) = g i) ->
  map f (Zrange_from (k + 1) n) = map g (Zrange_from k n).
Proof.
  induction n as [ | n IH]; intros k H; cbn [Zrange_from map]; [reflexivity | ].
  rewrite H by lia. f_equal. apply IH. intros i Hi. apply H. lia.
Qed.

(** ** Descriptor distance: facts *)

Lemma index_cons (a : Q) (l : list Q) (i : Z) :
  0 <= i -> index (a :: l) (i + 1) = index l i.
Proof.
  intros Hi. unfold index. rewrite Z2Nat.inj_add by lia.
  rewrite Nat.add_comm. reflexivity.
Qed.

Lemma sq_diffs_by_index (l1 : list Q) :
  forall l2, length l1 = length l2 ->
  map (fun i => ((index l1 i - index l2 i) * (index l1 i - index l2 i))%Q)
      (Zrange_from 0 (length l1)) =
  map (fun ab => ((fst ab - snd ab) * (fst ab - snd ab))%Q) (combine l1 l2).
Proof.
  induction l1 as [ | a l1 IH]; intros [ | b l2] Hlen; try discriminate; [reflexivity | ].
  cbn [length Zrange_from map combine fst snd]. f_equal.
  rewrite <- (IH l2) by (cbn [length] in Hlen; lia).
  apply (map_Zrange_from_shift _ _ _ (length l1) 0).
  intros i Hi. now rewrite !index_cons.
Qed.

(** C6.  [descr_dist_sq] returns [DBL_MAX], a number and not an error,
    when the two descriptor lengths differ, whatever the descriptors
    hold; when the lengths agree, and each descriptor holds as many
    values as its length says, it returns the sum of the squared
    per-dimension differences. *)
Theorem descr_dist_sq_spec (f1 f2 : SIFT_feature_unit.t) :
  (SIFT_feature_unit.d f2 <> SIFT_feature_unit.d f1 ->
   descr_dist_sq f1 f2 = DBL_MAX) /\
  (SIFT_feature_unit.well_formed f1 -> SIFT_feature_unit.well_formed f2 ->
   SIFT_feature_unit.d f2 = SIFT_feature_unit.d f1 ->
   descr_dist_sq f1 f2 =
   sum_sq_diff (SIFT_feature_unit.descr f1) (SIFT_feature_unit.descr f2)).
Proof.
  unfold descr_dist_sq, SIFT_feature_unit.well_formed. split.
  - intros Hd. apply Z.eqb_neq in Hd. now rewrite Hd.
  - intros W1 W2 Hd. rewrite Hd, Z.eqb_refl. cbn [negb].
    rewrite for_fold. unfold Zrange, sum_sq_diff, Qsum.
    replace (Z.to_nat (SIFT_feature_unit.d f1 - 0))
      with (length (SIFT_feature_unit.descr f1)) by lia.
    rewrite <- sq_diffs_by_index by lia.
    now rewrite fold_left_map.
Qed.

Lemma descr_dist_sq_spec_example :
  descr_dist_sq (SIFT_feature_unit.mk 0 0 3 [1; 2; 3]%Q)
                (SIFT_feature_unit.mk 0 0 2 [3; 2]%Q) = DBL_MAX /\
  descr_dist_sq (SIFT_feature_unit.mk 0 0 3 [1; 2; 3]%Q)
                (SIFT_feature_unit.mk 0 0 3 [3; 2; 1 # 2]%Q) =
  sum_sq_diff [1; 2; 3]%Q [3; 2; 1 # 2]%Q.
Proof.
  split.
  - apply (descr_dist_sq_spec (SIFT_feature_unit.mk 0 0 3 [1; 2; 3]%Q)
             (SIFT_feature_unit.mk 0 0 2 [3; 2]%Q)).
    discriminate.
  - apply (descr_dist_sq_spec (SIFT_feature_unit.mk 0 0 3 [1; 2; 3]%Q)
             (SIFT_feature_unit.mk 0 0 3 [3; 2; 1 # 2]%Q)); reflexivity.
Defined.

(** ** Sums of rationals and 2x2 systems *)

Local Open Scope Q_scope.

Lemma fold_left_Qplus_acc (l : list Q) :
  forall s, fold_left Qplus l s == s + fold_left Qplus l 0.
Proof.
  induction l as [ | a l IH]; intros s; cbn [fold_left].
  - ring.
  - rewrite (IH (s + a)), (IH (0 + a)). ring.
Qed.

Lemma Qsum_cons (a : Q) (l : list Q) : Qsum (a :: l) == a + Qsum l.
Proof. unfold Qsum. cbn [fold_left]. rewrite fold_left_Qplus_acc. ring. Qed.

Section Sums.
Variable T : Type.

Lemma Qsum_map_ext (f g : T -> Q) (l : list T) :
  (forall k, In k l -> f k == g k) -> Qsum (map f l) == Qsum (map g l).
Proof.
  induction l as [ | k l IH]; intros H; cbn [map]; [reflexivity | ].
  rewrite !Qsum_cons, (H k (or_introl eq_refl)), IH; [reflexivity | ].
  intros k' Hk'. apply H. now right.
Qed.

Lemma Qsum_map_scale (c : Q) (f : T -> Q) (l : list T) :
  Qsum (map (fun k => c * f k) l) == c * Qsum (map f l).
Proof.
  induction l as [ | k l IH]; cbn [map].
  - unfold Qsum; cbn. ring.
  - rewrite !Qsum_cons, IH. ring.
Qed.

Lemma Qsum_map_plus (f g : T -> Q) (l : list T) :
  Qsum (map (fun k => f k + g k) l) == Qsum (map f l) + Qsum (map g l).
Proof.
  induction l as [ | k l IH]; cbn [map].
  - unfold Qsum; cbn. ring.
  - rewrite !Qsum_cons, IH. ring.
Qed.

Lemma Qsum_map_nonneg (f : T -> Q) (l : list T) :
  (forall k, In k l -> 0 <= f k) -> 0 <= Qsum (map f l).
Proof.
  induction l as [ | k l IH]; intros H; cbn [map].
  - unfold Qsum; cbn. lra.
  - rewrite Qsum_cons.
    assert (0 <= f k) by (apply H; now left).
    assert (0 <= Qsum (map f l)) by (apply IH; intros; apply H; now right).
    lra.
Qed.

Lemma Qsum_map_zero (f : T -> Q) (l : list T) :
  (forall k, In k l -> 0 <= f k) -> Qsum (map f l) == 0 ->
  forall k, In k l -> f k == 0.
Proof.
  induction l as [ | k l IH]; intros Hpos Hsum k' Hk'; [destruct Hk' | ].
  cbn [map] in Hsum. rewrite Qsum_cons in Hsum.
  assert (0 <= f k) by (apply Hpos; now left).
  assert (0 <= Qsum (map f l)) by (apply Qsum_map_nonneg; intros; apply Hpos; now right).
  destruct Hk' as [<- | Hk'].
  - lra.
  - apply IH; trivial; [intros; apply Hpos; now right | lra].
Qed.

Lemma Qsq_nonneg (a : Q) : 0 <= a * a.
Proof. destruct (Qlt_le_dec a 0); nra. Qed.

Lemma Qsq_zero (a : Q) : a * a == 0 -> a == 0.
Proof. intros H. apply Qmult_integral in H. tauto. Qed.

Variables (x y d : T -> Q) (l : list T).

Let A := Qsum (map (fun k => x k * x k) l).
Let B := Qsum (map (fun k => x k * y k) l).
Let C := Qsum (map (fun k => y k * y k) l).
Let P := Qsum (map (fun k => x k * d k) l).
Let R := Qsum (map (fun k => y k * d k) l).

(** Cauchy-Schwarz, the case of equality: when the determinant of the
    Gram matrix vanishes, the two vectors are proportional. *)
Lemma Gram_singular_proportional :
  A * C == B * B -> forall k, In k l -> A * y k == B * x k.
Proof.
  intros Hdet k Hk.
  assert (Hz : Qsum (map (fun k => (A * y k - B * x k) * (A * y k - B * x k)) l) == 0).
  { rewrite (Qsum_map_ext _
      (fun k => A * A * (y k * y k) + ((- (2) * A * B) * (x k * y k) + B * B * (x k * x k))))
      by (intros; ring).
    rewrite Qsum_map_plus, Qsum_map_plus, !Qsum_map_scale.
    fold A B C.
    setoid_replace (A * A * C + (- (2) * A * B * B + B * B * A)) with (A * (A * C - B * B)) by ring.
    rewrite Hdet. ring. }
  pose proof (Qsum_map_zero _ l (fun k _ => Qsq_nonneg _) Hz k Hk) as H0.
  cbv beta in H0. apply Qsq_zero in H0. lra.
Qed.

Lemma Gram_singular_rhs : A * C == B * B -> A * R == B * P.
Proof.
  intros Hdet. unfold R, P. rewrite <- !Qsum_map_scale.
  apply Qsum_map_ext. intros k Hk.
  pose proof (Gram_singular_proportional Hdet k Hk) as H.
  setoid_replace (A * (y k * d k)) with (A * y k * d k) by ring.
  rewrite H. ring.
Qed.

Lemma Gram_zero_rhs : A == 0 -> P == 0.
Proof.
  intros HA. unfold P.
  rewrite (Qsum_map_ext _ (fun _ => 0 * 0)).
  - rewrite Qsum_map_scale. ring.
  - intros k Hk.
    pose proof (Qsum_map_zero (fun k => x k * x k) l (fun k _ => Qsq_nonneg _) HA k Hk) as H0.
    cbv beta in H0. apply Qsq_zero in H0. rewrite H0. ring.
Qed.
End Sums.

Lemma Qsum_map_all_zero (T : Type) (f : T -> Q) (l : list T) :
  (forall k, In k l -> f k == 0) -> Qsum (map f l) == 0.
Proof.
  intros H. rewrite (Qsum_map_ext T f (fun _ => 0 * 0) l).
  - rewrite Qsum_map_scale. ring.
  - intros k Hk. rewrite (H k Hk). ring.
Qed.

Lemma quarters_plus (n1 n2 : Z) (q1 q2 : Q) :
  quarters n1 q1 -> quarters n2 q2 -> quarters (n1 + n2) (q1 + q2).
Proof.
  intros (k1 & E1 & B1) (k2 & E2 & B2). exists (k1 + k2)%Z. split; [ | lia].
  rewrite E1, E2, !(Qmake_Qdiv _ 4), inject_Z_plus. field.
Qed.

Lemma quarters_Qsum (T : Type) (B : Z) (f : T -> Q) (l : list T) :
  (forall k, quarters B (f k)) ->
  quarters (B * Z.of_nat (length l)) (Qsum (map f l)).
Proof.
  intros H. induction l as [ | k l IH]; cbn [map length].
  - exists 0%Z. split; [reflexivity | lia].
  - destruct (quarters_plus _ _ _ _ (H k) IH) as (z & E & Hz).
    exists z. split; [now rewrite Qsum_cons | lia].
Qed.

(** The products [getOptFlow] adds up: half-integers times
    half-integers or integers, the integers being differences of
    8-bit values. *)
Lemma quarters_half_half (a b : Z) :
  (Z.abs a <= 255)%Z -> (Z.abs b <= 255)%Z ->
  quarters 130050 ((inject_Z a / 2) * (inject_Z b / 2)).
Proof.
  intros Ha Hb. exists (a * b)%Z. split.
  - rewrite (Qmake_Qdiv (a * b) 4), !inject_Z_mult. field.
  - rewrite Z.abs_mul.
    pose proof (Z.abs_nonneg a). pose proof (Z.abs_nonneg b). nia.
Qed.

Lemma quarters_half_int (a b : Z) :
  (Z.abs a <= 255)%Z -> (Z.abs b <= 255)%Z ->
  quarters 130050 ((inject_Z a / 2) * inject_Z b).
Proof.
  intros Ha Hb. exists (2 * a * b)%Z. split.
  - rewrite (Qmake_Qdiv (2 * a * b) 4), !inject_Z_mult. field.
  - rewrite !Z.abs_mul. change (Z.abs 2) with 2%Z.
    pose proof (Z.abs_nonneg a). pose proof (Z.abs_nonneg b). nia.
Qed.

Lemma cancel_l (a u v : Q) : ~ a == 0 -> a * u == a * v -> u == v.
Proof. intros Ha H. now apply (Qmult_inj_l u v a Ha). Qed.

Lemma solve_2x2 (A B C P R e00 e01 e10 e11 : Q) :
  e00 * A + e01 * B == A -> e00 * B + e01 * C == B ->
  e10 * A + e11 * B == B -> e10 * B + e11 * C == C ->
  (A * C == B * B -> A * R == B * P /\ B * R == C * P) ->
  (A == 0 -> P == 0) -> (C == 0 -> R == 0) ->
  e00 * P + e01 * R == P /\ e10 * P + e11 * R == R.
Proof.
  intros H00 H01 H10 H11 Hprop HA HC.
  destruct (Qeq_dec (A * C) (B * B)) as [Hdet | Hdet].
  - destruct (Hprop Hdet) as [H1 H2].
    destruct (Qeq_dec A 0) as [A0 | A0].
    + destruct (Qeq_dec C 0) as [C0 | C0].
      * rewrite (HA A0), (HC C0). split; ring.
      * split; apply (cancel_l C); trivial.
        -- setoid_replace (C * (e00 * P + e01 * R)) with (e00 * (C * P) + e01 * C * R) by ring.
           rewrite <- H2.
           setoid_replace (e00 * (B * R) + e01 * C * R) with (R * (e00 * B + e01 * C)) by ring.
           rewrite H01. ring.
        -- setoid_replace (C * (e10 * P + e11 * R)) with (e10 * (C * P) + e11 * C * R) by ring.
           rewrite <- H2.
           setoid_replace (e10 * (B * R) + e11 * C * R) with (R * (e10 * B + e11 * C)) by ring.
           rewrite H11. ring.
    + split; apply (cancel_l A); trivial.
      * setoid_replace (A * (e00 * P + e01 * R)) with (e00 * A * P + e01 * (A * R)) by ring.
        rewrite H1.
        setoid_replace (e00 * A * P + e01 * (B * P)) with (P * (e00 * A + e01 * B)) by ring.
        rewrite H00. ring.
      * setoid_replace (A * (e10 * P + e11 * R)) with (e10 * A * P + e11 * (A * R)) by ring.
        rewrite H1.
        setoid_replace (e10 * A * P + e11 * (B * P)) with (P * (e10 * A + e11 * B)) by ring.
        rewrite H10. ring.
  - assert (Hd : ~ A * C - B * B == 0) by (intros E; apply Hdet; lra).
    assert (E00 : e00 == 1).
    { assert (H : (A * C - B * B) * (e00 - 1) == 0).
      { setoid_replace ((A * C - B * B) * (e00 - 1))
          with (C * (e00 * A + e01 * B) - B * (e00 * B + e01 * C) - (A * C - B * B)) by ring.
        rewrite H00, H01. ring. }
      apply Qmult_integral in H. destruct H; [contradiction | lra]. }
    assert (E01 : e01 == 0).
    { assert (H : (A * C - B * B) * e01 == 0).
      { setoid_replace ((A * C - B * B) * e01)
          with (A * (e00 * B + e01 * C) - B * (e00 * A + e01 * B)) by ring.
        rewrite H00, H01. ring. }
      apply Qmult_integral in H. destruct H; [contradiction | trivial]. }
    assert (E10 : e10 == 0).
    { assert (H : (A * C - B * B) * e10 == 0).
      { setoid_replace ((A * C - B * B) * e10)
          with (C * (e10 * A + e11 * B) - B * (e10 * B + e11 * C)) by ring.
        rewrite H10, H11. ring. }
      apply Qmult_integral in H. destruct H; [contradiction | trivial]. }
    assert (E11 : e11 == 1).
    { assert (H : (A * C - B * B) * (e11 - 1) == 0).
      { setoid_replace ((A * C - B * B) * (e11 - 1))
          with (A * (e10 * B + e11 * C) - B * (e10 * A + e11 * B) - (A * C - B * B)) by ring.
        rewrite H10, H11. ring. }
      apply Qmult_integral in H. destruct H; [contradiction | lra]. }
    rewrite E00, E01, E10, E11. split; ring.
Qed.


Local Close Scope Q_scope.

(** [pinv] is a generalised inverse of every matrix. *)
Lemma pinv_ginverse (M : Mat2x2) : ginverse M (pinv M).
Proof.
  destruct M as [a b c d].
  unfold ginverse, mat_eq, pinv. cbn [m00 m01 m10 m11].
  destruct (Qeq_bool (a * d - b * c) 0) eqn:Edet; cbn [negb];
    [apply Qeq_bool_eq in Edet; rename Edet into Hdet
    | apply Qeq_bool_neq in Edet; rename Edet into Hdet].
  - destruct (Qeq_bool (a * a + b * b + c * c + d * d) 0) eqn:En; cbn [negb];
      [apply Qeq_bool_eq in En; rename En into Hn
      | apply Qeq_bool_neq in En; rename En into Hn].
    + pose proof (Qsq_nonneg a). pose proof (Qsq_nonneg b).
      pose proof (Qsq_nonneg c). pose proof (Qsq_nonneg d).
      assert (Ha : (a == 0)%Q) by (apply Qsq_zero; lra).
      assert (Hb : (b == 0)%Q) by (apply Qsq_zero; lra).
      assert (Hc : (c == 0)%Q) by (apply Qsq_zero; lra).
      assert (Hd : (d == 0)%Q) by (apply Qsq_zero; lra).
      unfold mat_mul; cbn [m00 m01 m10 m11].
      rewrite Ha, Hb, Hc, Hd. repeat split; ring.
    + unfold mat_mul; cbn [m00 m01 m10 m11].
      repeat split.
      * transitivity ((a * (a * a + b * b + c * c + d * d) - d * (a * d - b * c))
                      / (a * a + b * b + c * c + d * d))%Q;
          [field; exact Hn | rewrite Hdet; field; exact Hn].
      * transitivity ((b * (a * a + b * b + c * c + d * d) + c * (a * d - b * c))
                      / (a * a + b * b + c * c + d * d))%Q;
          [field; exact Hn | rewrite Hdet; field; exact Hn].
      * transitivity ((c * (a * a + b * b + c * c + d * d) + b * (a * d - b * c))
                      / (a * a + b * b + c * c + d * d))%Q;
          [field; exact Hn | rewrite Hdet; field; exact Hn].
      * transitivity ((d * (a * a + b * b + c * c + d * d) - a * (a * d - b * c))
                      / (a * a + b * b + c * c + d * d))%Q;
          [field; exact Hn | rewrite Hdet; field; exact Hn].
  - unfold mat_mul; cbn [m00 m01 m10 m11].
    repeat split; field; exact Hdet.
Qed.

(** ** Optical flow: facts *)

Section OpticalFlowFacts.

Variable IplImage : Type.
Variable pixval8U : IplImage -> Q -> Q -> Byte.byte.
Variable area : Z.
Variable cvInvert_SVD : Mat2x2 -> Mat2x2.

Let sums0 : sums := {| M11 := 0; M12 := 0; M22 := 0; b0 := 0; b1 := 0 |}%Q.

(** The nested loops visit [offsets] in order. *)
Lemma flow_sums_fold (cur : IplImage) (p : Point2D) (pre : IplImage) :
  flow_sums IplImage pixval8U area cur p pre =
  fold_left (fun s o => accumulate IplImage pixval8U cur p pre (fst o) (snd o) s)
            (offsets area) sums0.
Proof.
  unfold flow_sums, offsets, half_width.
  rewrite Z.quot_opp_l by lia. rewrite for_fold.
  rewrite <- fold_left_list_prod.
  apply fold_left_ext_in. intros i _ s. apply for_fold.
Qed.

Lemma count_occ_offsets (i j : Z) :
  count_occ Zpair_eq_dec (offsets area) (i, j) =
  if (- half_width area <=? i) && (i <? half_width area) &&
     (- half_width area <=? j) && (j <? half_width area)
  then 1%nat else 0%nat.
Proof.
  unfold offsets. rewrite count_occ_list_prod, !count_occ_Zrange.
  destruct (- half_width area <=? i), (i <? half_width area),
    (- half_width area <=? j), (j <? half_width area); reflexivity.
Qed.


(** Each of the five sums is the sum of its own products over the
    offsets visited. *)
Lemma fold_accumulate (cur : IplImage) (p : Point2D) (pre : IplImage) (l : list (Z * Z)) :
  forall s : sums,
  fold_left (fun s o => accumulate IplImage pixval8U cur p pre (fst o) (snd o) s) l s =
  {| M11 := fold_left Qplus
       (map (fun o => gx IplImage pixval8U cur p o * gx IplImage pixval8U cur p o)%Q l) (M11 s);
     M12 := fold_left Qplus
       (map (fun o => gx IplImage pixval8U cur p o * gy IplImage pixval8U cur p o)%Q l) (M12 s);
     M22 := fold_left Qplus
       (map (fun o => gy IplImage pixval8U cur p o * gy IplImage pixval8U cur p o)%Q l) (M22 s);
     b0 := fold_left Qplus
       (map (fun o => gx IplImage pixval8U cur p o * dI IplImage pixval8U cur pre p o)%Q l) (b0 s);
     b1 := fold_left Qplus
       (map (fun o => gy IplImage pixval8U cur p o * dI IplImage pixval8U cur pre p o)%Q l) (b1 s) |}.
Proof.
  induction l as [ | o l IH]; intros s; cbn [fold_left map].
  - now destruct s.
  - rewrite IH. reflexivity.
Qed.

Lemma flow_sums_spec (cur : IplImage) (p : Point2D) (pre : IplImage) :
  let M := structure_matrix IplImage pixval8U area cur p in
  let b := rhs IplImage pixval8U area cur pre p in
  flow_sums IplImage pixval8U area cur p pre =
  {| M11 := m00 M; M12 := m01 M; M22 := m11 M; b0 := v0 b; b1 := v1 b |}.
Proof. cbv zeta. rewrite flow_sums_fold, fold_accumulate. reflexivity. Qed.

(** The system [M v = -b] has a solution whatever the frames are: a
    generalised inverse of the structure matrix solves it. *)
Lemma normal_equations_consistent (cur : IplImage) (p : Point2D) (pre : IplImage)
  (X : Mat2x2) :
  let M := structure_matrix IplImage pixval8U area cur p in
  let b := rhs IplImage pixval8U area cur pre p in
  let nb := {| v0 := - v0 b; v1 := - v1 b |}%Q in
  ginverse M X -> vec_eq (cvMatMul M (cvMatMul X nb)) nb.
Proof.
  cbv zeta. unfold ginverse, mat_eq, vec_eq, mat_mul, cvMatMul, structure_matrix, rhs, over_offsets.
  cbn [m00 m01 m10 m11 v0 v1].
  set (x := gx IplImage pixval8U cur p). set (y := gy IplImage pixval8U cur p).
  set (d := dI IplImage pixval8U cur pre p). set (l := offsets area).
  set (A := Qsum (map (fun o => x o * x o)%Q l)).
  set (B := Qsum (map (fun o => x o * y o)%Q l)).
  set (C := Qsum (map (fun o => y o * y o)%Q l)).
  set (P := Qsum (map (fun o => x o * d o)%Q l)).
  set (R := Qsum (map (fun o => y o * d o)%Q l)).
  intros (H00 & H01 & H10 & H11).
  assert (B' : (Qsum (map (fun o => y o * x o) l) == B)%Q)
    by (apply Qsum_map_ext; intros; ring).
  destruct (solve_2x2 A B C P R
              (A * m00 X + B * m10 X) (A * m01 X + B * m11 X)
              (B * m00 X + C * m10 X) (B * m01 X + C * m11 X))%Q as [E0 E1].
  - etransitivity; [ | exact H00]; ring.
  - etransitivity; [ | exact H01]; ring.
  - etransitivity; [ | exact H10]; ring.
  - etransitivity; [ | exact H11]; ring.
  - intros Hdet. split.
    + apply (Gram_singular_rhs _ x y d l Hdet).
    + pose proof (Gram_singular_rhs _ y x d l) as H. cbv beta in H.
      fold C A P R in H. rewrite B' in H. symmetry. apply H.
      rewrite <- Hdet. ring.
  - apply (Gram_zero_rhs _ x d l).
  - apply (Gram_zero_rhs _ y d l).
  - split.
    + transitivity (- ((A * m00 X + B * m10 X) * P + (A * m01 X + B * m11 X) * R))%Q;
        [ring | now rewrite E0].
    + transitivity (- ((B * m00 X + C * m10 X) * P + (B * m01 X + C * m11 X) * R))%Q;
        [ring | now rewrite E1].
Qed.

(** C1.  Over the neighbourhood of [p], [getOptFlow] accumulates the
    structure matrix M = [[Sum gx^2, Sum gx*gy], [Sum gx*gy, Sum gy^2]]
    and the vector b = [Sum gx*(I_cur - I_prev), Sum gy*(I_cur - I_prev)],
    [gx] and [gy] being the central differences of the current frame; it
    returns, as (drow, dcol) = (vy, vx), the product v of the matrix
    [cvInvert] gives for M with -b.  Whenever that matrix is a
    generalised inverse of M, as an inverse or a pseudo-inverse is, v
    solves M v = -b. *)
Theorem getOptFlow_solves (cur : IplImage) (p : Point2D) (pre : IplImage) :
  let M := structure_matrix IplImage pixval8U area cur p in
  let b := rhs IplImage pixval8U area cur pre p in
  let nb := {| v0 := - v0 b; v1 := - v1 b |}%Q in
  let r := getOptFlow IplImage pixval8U area cvInvert_SVD cur p pre in
  flow_sums IplImage pixval8U area cur p pre =
    {| M11 := m00 M; M12 := m01 M; M22 := m11 M; b0 := v0 b; b1 := v1 b |} /\
  m10 M = m01 M /\
  {| v0 := dcol r; v1 := drow r |} = cvMatMul (cvInvert_SVD M) nb /\
  (ginverse M (cvInvert_SVD M) ->
   vec_eq (cvMatMul M {| v0 := dcol r; v1 := drow r |}) nb).
Proof.
  cbv zeta.
  assert (E : {| v0 := dcol (getOptFlow IplImage pixval8U area cvInvert_SVD cur p pre);
                 v1 := drow (getOptFlow IplImage pixval8U area cvInvert_SVD cur p pre) |} =
              cvMatMul (cvInvert_SVD (structure_matrix IplImage pixval8U area cur p))
                {| v0 := - v0 (rhs IplImage pixval8U area cur pre p);
                   v1 := - v1 (rhs IplImage pixval8U area cur pre p) |}%Q).
  { unfold getOptFlow. rewrite flow_sums_spec. reflexivity. }
  split; [apply flow_sums_spec | ]. split; [reflexivity | ]. split; [exact E | ].
  intros HX. rewrite E. now apply normal_equations_consistent.
Qed.

(** C5, as the code has it.  The accumulation of [getOptFlow] runs over
    the offsets (i, j) with -h <= i < h and -h <= j < h, where h is half
    of [OPTICAL_FLOW_POINT_AREA]: each of them contributes exactly once
    and no other offset contributes. *)
Theorem flow_sums_neighbourhood (cur : IplImage) (p : Point2D) (pre : IplImage) :
  let h := half_width area in
  flow_sums IplImage pixval8U area cur p pre =
    fold_left (fun s o => accumulate IplImage pixval8U cur p pre (fst o) (snd o) s)
      (offsets area) {| M11 := 0; M12 := 0; M22 := 0; b0 := 0; b1 := 0 |}%Q /\
  forall i j : Z,
    count_occ Zpair_eq_dec (offsets area) (i, j) =
    if (- h <=? i) && (i <? h) && (- h <=? j) && (j <? h) then 1%nat else 0%nat.
Proof.
  cbv zeta. split; [apply flow_sums_fold | apply count_occ_offsets].
Qed.






(** *** The sums are exact in binary64 *)

Lemma pix_range (I : IplImage) (r c : Q) : 0 <= pix IplImage pixval8U I r c <= 255.
Proof. unfold pix. pose proof (Byte.to_N_bounded (pixval8U I r c)). lia. Qed.

(** X20.  Each of the five sums is a multiple of 1/4 of magnitude at most
    130050/4 times the number of offsets: for every neighbourhood of
    fewer than [2^53 / 130050] pixels the doubles of the code hold the
    sums, and every partial sum, without rounding. *)
Lemma flow_sums_quarters (cur : IplImage) (p : Point2D) (pre : IplImage) :
  let n := 130050 * Z.of_nat (length (offsets area)) in
  let s := flow_sums IplImage pixval8U area cur p pre in
  quarters n (M11 s) /\ quarters n (M12 s) /\ quarters n (M22 s) /\
  quarters n (b0 s) /\ quarters n (b1 s).
Proof.
  cbv zeta. rewrite flow_sums_spec. cbn [M11 M12 M22 b0 b1].
  unfold structure_matrix, rhs, over_offsets. cbn [m00 m01 m11 v0 v1].
  repeat split; apply quarters_Qsum; intros o; unfold gx, gy, dI, intensity;
    (apply quarters_half_half || apply quarters_half_int);
    match goal with
    | |- Z.abs (pix _ _ ?I ?r ?c - pix _ _ ?I' ?r' ?c') <= _ =>
        pose proof (pix_range I r c); pose proof (pix_range I' r' c'); lia
    end.
Qed.

(** *** A uniform patch *)


End OpticalFlowFacts.

(** ** Optical flow on concrete frames *)

(** On the ramp the structure matrix is singular (no gradient along the
    rows); with the pseudo-inverse the displacement still solves the
    system. *)
Lemma getOptFlow_solves_example :
  let M := structure_matrix frame frame_pixel 4 ramp (mkPoint2D 5 5) in
  let b := rhs frame frame_pixel 4 ramp ramp_shifted (mkPoint2D 5 5) in
  let r := getOptFlow frame frame_pixel 4 pinv ramp (mkPoint2D 5 5) ramp_shifted in
  (m00 M * m11 M - m01 M * m10 M == 0)%Q /\
  vec_eq (cvMatMul M {| v0 := dcol r; v1 := drow r |})
         {| v0 := - v0 b; v1 := - v1 b |}%Q.
Proof.
  cbv zeta. split; [vm_compute; reflexivity | ].
  apply (getOptFlow_solves frame frame_pixel 4 pinv ramp (mkPoint2D 5 5) ramp_shifted).
  unfold ginverse, mat_eq. vm_compute. repeat split; reflexivity.
Defined.

(** With [OPTICAL_FLOW_POINT_AREA] = 4 the offset (2, 2) lies in the
    square -2 <= i, j <= 2 and is not visited. *)
Lemma offset_at_half_width_not_visited :
  ~ (forall i j : Z,
       - half_width 4 <= i <= half_width 4 ->
       - half_width 4 <= j <= half_width 4 ->
       count_occ Zpair_eq_dec (offsets 4) (i, j) = 1%nat).
Proof.
  intros H. specialize (H 2 2). vm_compute in H.
  assert (E : 0%nat = 1%nat) by (apply H; split; discriminate).
  discriminate E.
Qed.

(** Whatever the constant is, the offset (h, h) is never visited. *)
Lemma offset_at_half_width_never_visited (area : Z) :
  count_occ Zpair_eq_dec (offsets area) (half_width area, half_width area) = 0%nat.
Proof.
  rewrite count_occ_offsets. rewrite Z.ltb_irrefl.
  now destruct (- half_width area <=? half_width area).
Qed.




(** A uniform current frame: the structure matrix is the zero matrix,
    its pseudo-inverse too, and the displacement is zero. *)
Example getOptFlow_flat_example :
  let r := getOptFlow frame frame_pixel 4 pinv flat (mkPoint2D 5 5) ramp in
  (drow r == 0 /\ dcol r == 0)%Q.
Proof. cbv zeta. split; vm_compute; reflexivity. Qed.

(** * Part III: further properties of the code *)

(** ** Distances *)

(** X1.  [dist_sq_2D] is symmetric and never negative, and it is 0
    for two points with equal coordinates. *)
Theorem dist_sq_2D_sym_nonneg (p1 p2 : CvPoint2D64f.t) :
  (dist_sq_2D p1 p2 == dist_sq_2D p2 p1 /\
   0 <= dist_sq_2D p1 p2 /\
   (CvPoint2D64f.x p1 == CvPoint2D64f.x p2 /\ CvPoint2D64f.y p1 == CvPoint2D64f.y p2 ->
    dist_sq_2D p1 p2 == 0))%Q.
Proof.
  unfold dist_sq_2D. destruct p1 as [x1 y1], p2 as [x2 y2]. cbn.
  pose proof (Qsq_nonneg (x1 - x2)) as Hx. pose proof (Qsq_nonneg (y1 - y2)) as Hy.
  split; [ring | ]. split; [lra | ].
  intros [Ex Ey]. rewrite Ex, Ey. ring.
Qed.

Lemma descr_dist_sq_equal_d (f1 f2 : SIFT_feature_unit.t) :
  SIFT_feature_unit.well_formed f1 -> SIFT_feature_unit.well_formed f2 ->
  SIFT_feature_unit.d f2 = SIFT_feature_unit.d f1 ->
  descr_dist_sq f1 f2 =
  sum_sq_diff (SIFT_feature_unit.descr f1) (SIFT_feature_unit.descr f2).
Proof.
  unfold descr_dist_sq, SIFT_feature_unit.well_formed. intros W1 W2 Hd.
  rewrite Hd, Z.eqb_refl. cbn [negb].
  rewrite for_fold. unfold Zrange, sum_sq_diff, Qsum.
  replace (Z.to_nat (SIFT_feature_unit.d f1 - 0))
    with (length (SIFT_feature_unit.descr f1)) by lia.
  rewrite <- sq_diffs_by_index by lia.
  now rewrite fold_left_map.
Qed.

Lemma sum_sq_diff_cons (a b : Q) (l1 l2 : list Q) :
  (sum_sq_diff (a :: l1) (b :: l2) == (a - b) * (a - b) + sum_sq_diff l1 l2)%Q.
Proof. unfold sum_sq_diff. cbn [combine map fst snd]. apply Qsum_cons. Qed.

Lemma sum_sq_diff_sym (l1 : list Q) :
  forall l2, (sum_sq_diff l1 l2 == sum_sq_diff l2 l1)%Q.
Proof.
  induction l1 as [ | a l1 IH]; intros [ | b l2]; try reflexivity.
  rewrite !sum_sq_diff_cons, (IH l2). ring.
Qed.

Lemma sum_sq_diff_nonneg (l1 : list Q) :
  forall l2, (0 <= sum_sq_diff l1 l2)%Q.
Proof.
  induction l1 as [ | a l1 IH]; intros [ | b l2];
    try (unfold sum_sq_diff, Qsum; cbn; lra).
  rewrite sum_sq_diff_cons.
  pose proof (Qsq_nonneg (a - b)). pose proof (IH l2). lra.
Qed.

Lemma sum_sq_diff_equal (l1 : list Q) :
  forall l2, Forall2 Qeq l1 l2 -> (sum_sq_diff l1 l2 == 0)%Q.
Proof.
  induction l1 as [ | a l1 IH]; intros l2 H; inversion H as [ | ? b ? l2' Eab Hrest]; subst.
  - reflexivity.
  - rewrite sum_sq_diff_cons, (IH l2' Hrest), Eab. ring.
Qed.

(** X2.  For two features whose descriptors hold as many values as
    their lengths say, [descr_dist_sq] does not depend on the order of
    its arguments and is never negative. *)
Theorem descr_dist_sq_sym_nonneg (f1 f2 : SIFT_feature_unit.t) :
  SIFT_feature_unit.well_formed f1 -> SIFT_feature_unit.well_formed f2 ->
  (descr_dist_sq f1 f2 == descr_dist_sq f2 f1 /\ 0 <= descr_dist_sq f1 f2)%Q.
Proof.
  intros W1 W2.
  destruct (Z.eq_dec (SIFT_feature_unit.d f2) (SIFT_feature_unit.d f1)) as [E | N].
  - rewrite (descr_dist_sq_equal_d f1 f2 W1 W2 E).
    rewrite (descr_dist_sq_equal_d f2 f1 W2 W1 (eq_sym E)).
    split; [apply sum_sq_diff_sym | apply sum_sq_diff_nonneg].
  - unfold descr_dist_sq.
    assert (N' : SIFT_feature_unit.d f1 <> SIFT_feature_unit.d f2) by congruence.
    apply Z.eqb_neq in N, N'. rewrite N, N'. cbn [negb].
    split; [reflexivity | ]. unfold DBL_MAX.
    change 0%Q with (inject_Z 0). rewrite <- Zle_Qle. vm_compute. discriminate.
Qed.

(** X3.  Two features whose descriptors are equal value by value,
    each holding as many values as its length says, are at squared
    distance 0 (and not [DBL_MAX]), wherever the features lie in their
    images. *)
Theorem descr_dist_sq_same_descriptor (f1 f2 : SIFT_feature_unit.t) :
  SIFT_feature_unit.well_formed f1 -> SIFT_feature_unit.well_formed f2 ->
  Forall2 Qeq (SIFT_feature_unit.descr f1) (SIFT_feature_unit.descr f2) ->
  (descr_dist_sq f1 f2 == 0)%Q.
Proof.
  intros W1 W2 E.
  assert (Hd : SIFT_feature_unit.d f2 = SIFT_feature_unit.d f1).
  { apply Forall2_length in E. unfold SIFT_feature_unit.well_formed in *. lia. }
  rewrite (descr_dist_sq_equal_d f1 f2 W1 W2 Hd).
  now apply sum_sq_diff_equal.
Qed.

Lemma descr_dist_sq_sym_nonneg_example :
  (descr_dist_sq (SIFT_feature_unit.mk 0 0 3 [1; 2; 3]%Q)
                 (SIFT_feature_unit.mk 0 0 3 [3; 2; 1 # 2]%Q) ==
   descr_dist_sq (SIFT_feature_unit.mk 0 0 3 [3; 2; 1 # 2]%Q)
                 (SIFT_feature_unit.mk 0 0 3 [1; 2; 3]%Q) /\
   0 <= descr_dist_sq (SIFT_feature_unit.mk 0 0 3 [1; 2; 3]%Q)
                      (SIFT_feature_unit.mk 0 0 3 [3; 2; 1 # 2]%Q))%Q.
Proof.
  apply (descr_dist_sq_sym_nonneg (SIFT_feature_unit.mk 0 0 3 [1; 2; 3]%Q)
           (SIFT_feature_unit.mk 0 0 3 [3; 2; 1 # 2]%Q)); reflexivity.
Defined.

Lemma descr_dist_sq_same_descriptor_example :
  (descr_dist_sq (SIFT_feature_unit.mk 0 0 2 [1; 2]%Q)
                 (SIFT_feature_unit.mk 5 5 2 [2 # 2; 4 # 2]%Q) == 0)%Q.
Proof.
  apply (descr_dist_sq_same_descriptor (SIFT_feature_unit.mk 0 0 2 [1; 2]%Q)
           (SIFT_feature_unit.mk 5 5 2 [2 # 2; 4 # 2]%Q)); try reflexivity.
  repeat constructor.
Defined.

(** ** Optical flow *)

(** Cauchy-Schwarz: the determinant of a Gram matrix is not negative. *)
Lemma Gram_det_nonneg (T : Type) (x y : T -> Q) (l : list T) :
  (Qsum (map (fun k => x k * y k) l) * Qsum (map (fun k => x k * y k) l) <=
   Qsum (map (fun k => x k * x k) l) * Qsum (map (fun k => y k * y k) l))%Q.
Proof.
  set (A := Qsum (map (fun k => x k * x k)%Q l)).
  set (B := Qsum (map (fun k => x k * y k)%Q l)).
  set (C := Qsum (map (fun k => y k * y k)%Q l)).
  assert (HA : (0 <= A)%Q) by (apply Qsum_map_nonneg; intros; apply Qsq_nonneg).
  assert (Hs : (Qsum (map (fun k => (A * y k - B * x k) * (A * y k - B * x k)) l) ==
                A * (A * C - B * B))%Q).
  { rewrite (Qsum_map_ext _ _
      (fun k => A * A * (y k * y k) + ((- (2) * A * B) * (x k * y k) + B * B * (x k * x k)))%Q)
      by (intros; ring).
    rewrite Qsum_map_plus, Qsum_map_plus, !Qsum_map_scale. fold A B C. ring. }
  assert (Hn : (0 <= A * (A * C - B * B))%Q).
  { rewrite <- Hs. apply Qsum_map_nonneg. intros. apply Qsq_nonneg. }
  destruct (Qeq_dec A 0) as [A0 | A0].
  - assert (B0 : (B == 0)%Q).
    { unfold B. apply Qsum_map_all_zero. intros k Hk.
      pose proof (Qsum_map_zero _ (fun k => x k * x k)%Q l
                    (fun k _ => Qsq_nonneg (x k)) A0 k Hk) as H0.
      cbv beta in H0. apply Qsq_zero in H0. rewrite H0. ring. }
    rewrite A0, B0. lra.
  - assert (Apos : (0 < A)%Q) by (apply Qle_lt_or_eq in HA; destruct HA as [H | H];
                                  [exact H | exfalso; apply A0; now symmetry]).
    assert (Hd : (0 <= A * C - B * B)%Q).
    { destruct (Qlt_le_dec (A * C - B * B) 0) as [Hneg | Hpos]; [ | exact Hpos].
      exfalso.
      assert (Hm : (A * (A * C - B * B) < 0)%Q).
      { setoid_replace (A * (A * C - B * B))%Q with (- (A * (- (A * C - B * B))))%Q by ring.
        assert (0 < A * (- (A * C - B * B)))%Q by (apply Qmult_lt_0_compat; lra).
        lra. }
      lra. }
    lra.
Qed.

Section OpticalFlowMore.

Variable IplImage : Type.
Variable pixval8U : IplImage -> Q -> Q -> Byte.byte.
Variable area : Z.
Variable cvInvert_SVD : Mat2x2 -> Mat2x2.

(** X4.  The matrix that [getOptFlow] hands to [cvInvert] is symmetric
    and positive semi-definite: its diagonal entries and its determinant
    are never negative. *)
Theorem structure_matrix_psd (cur : IplImage) (p : Point2D) (pre : IplImage) :
  let s := flow_sums IplImage pixval8U area cur p pre in
  let M := {| m00 := M11 s; m01 := M12 s; m10 := M12 s; m11 := M22 s |} in
  m01 M = m10 M /\
  (0 <= m00 M /\ 0 <= m11 M /\ 0 <= m00 M * m11 M - m01 M * m10 M)%Q.
Proof.
  cbv zeta. rewrite flow_sums_spec. cbn [M11 M12 M22 m00 m01 m10 m11].
  unfold structure_matrix, over_offsets. cbn [m00 m01 m11].
  split; [reflexivity | ]. split; [ | split].
  - apply Qsum_map_nonneg. intros. apply Qsq_nonneg.
  - apply Qsum_map_nonneg. intros. apply Qsq_nonneg.
  - pose proof (Gram_det_nonneg _ (gx IplImage pixval8U cur p)
                  (gy IplImage pixval8U cur p) (offsets area)) as H.
    cbv beta in H. lra.
Qed.


(** X6.  Both components of the gradient [partial] returns are
    half-integers of magnitude at most 255/2. *)
Theorem partial_range (ipIm : IplImage) (p : Point2D) :
  let v := partial IplImage pixval8U ipIm p in
  (exists a b : Z, (dcol v == a # 2 /\ drow v == b # 2)%Q /\
                   Z.abs a <= 255 /\ Z.abs b <= 255) /\
  (- (255 # 2) <= dcol v <= 255 # 2 /\ - (255 # 2) <= drow v <= 255 # 2)%Q.
Proof.
  cbv zeta. unfold partial, dcol, drow. cbn [row col].
  set (a := pix IplImage pixval8U ipIm (row p) (col p + 1) -
            pix IplImage pixval8U ipIm (row p) (col p - 1)).
  set (b := pix IplImage pixval8U ipIm (row p + 1) (col p) -
            pix IplImage pixval8U ipIm (row p - 1) (col p)).
  assert (Ha : -255 <= a <= 255).
  { unfold a.
    pose proof (pix_range IplImage pixval8U ipIm (row p) (col p + 1)).
    pose proof (pix_range IplImage pixval8U ipIm (row p) (col p - 1)). lia. }
  assert (Hb : -255 <= b <= 255).
  { unfold b.
    pose proof (pix_range IplImage pixval8U ipIm (row p + 1) (col p)).
    pose proof (pix_range IplImage pixval8U ipIm (row p - 1) (col p)). lia. }
  assert (Ea : (inject_Z a / 2 == a # 2)%Q) by (rewrite (Qmake_Qdiv a 2); reflexivity).
  assert (Eb : (inject_Z b / 2 == b # 2)%Q) by (rewrite (Qmake_Qdiv b 2); reflexivity).
  split.
  - exists a, b. repeat split; trivial; lia.
  - rewrite Ea, Eb. clearbody a b. unfold Qle, Qopp. cbn [Qnum Qden]. lia.
Qed.

End OpticalFlowMore.



(** ** The tracking window *)

(** X7.  [ModifyTrackingWindows] may update a rectangle in place: called
    with the target itself as the output, it leaves there the window it
    would have written to a separate output. *)
Theorem ModifyTrackingWindows_in_place
  (tws : Q) (trackingRect TrackingWindow : loc) (WholeImageSize : Rect) (st : store) :
  ModifyTrackingWindows tws trackingRect trackingRect WholeImageSize st trackingRect =
  ModifyTrackingWindows tws trackingRect TrackingWindow WholeImageSize st TrackingWindow.
Proof. now rewrite !ModifyTrackingWindows_store, !Nat.eqb_refl. Qed.

(** X8.  For a target that lies in the image and has a non-negative
    size, and a padding fraction that is not negative, the window
    contains the target (the [int] arithmetic staying in range). *)
Theorem window_contains_target
  (tws : Q) (trackingRect TrackingWindow : loc) (WholeImageSize : Rect) (st : store) :
  no_overflow tws (st trackingRect) WholeImageSize ->
  (0 <= tws)%Q ->
  inside (st trackingRect) WholeImageSize ->
  let t := st trackingRect in
  let w := ModifyTrackingWindows tws trackingRect TrackingWindow WholeImageSize st
             TrackingWindow in
  upper w <= upper t /\ left w <= left t /\
  upper t + height t <= upper w + height w /\
  left t + width t <= left w + width w.
Proof.
  intros H Ht (Hu & Hl & Hw & Hh & Hb & Hr). cbv zeta.
  rewrite ModifyTrackingWindows_store, Nat.eqb_refl.
  rewrite window_value_ComputeWindow by exact H.
  pose proof (padding_nonneg tws _ Ht Hw) as Pw.
  pose proof (padding_nonneg tws _ Ht Hh) as Ph.
  unfold ComputeWindow, window_span, clamp_high, clamp_low, pad_span.
  cbn [upper left width height fst snd].
  revert Pw Ph.
  generalize (padding tws (width (st trackingRect))) (padding tws (height (st trackingRect))).
  intros q p Pw Ph.
  destruct (Z.ltb_spec (upper (st trackingRect) - p) 0);
    destruct (Z.ltb_spec (left (st trackingRect) - q) 0); cbn [fst snd];
    rewrite !Z.gtb_ltb;
    repeat match goal with
           | |- context [if ?a <? ?b then _ else _] => destruct (Z.ltb_spec a b); cbn [fst snd]
           end; lia.
Qed.

Lemma window_contains_target_example :
  let t := store_with (mkRect 2 50 40 10) 0%nat in
  let w := ModifyTrackingWindows (1 # 2) 0%nat 1%nat image_100
             (store_with (mkRect 2 50 40 10)) 1%nat in
  upper w <= upper t /\ left w <= left t /\
  upper t + height t <= upper w + height w /\
  left t + width t <= left w + width w.
Proof.
  apply (window_contains_target (1 # 2) 0%nat 1%nat image_100
           (store_with (mkRect 2 50 40 10))).
  - unfold no_overflow, small. vm_compute. intuition discriminate.
  - unfold Qle. cbn. lia.
  - unfold inside, store_with. cbn. lia.
Defined.

(** ** The tracker's constructor *)

Lemma push_back_loop (A B : Type) (g : A -> B) (dflt : A) (l2 : list A) :
  forall l1 : list A,
  fold_left (fun acc i => acc ++ [g (nth (Z.to_nat i) (l1 ++ l2) dflt)])
    (Zrange_from (Z.of_nat (length l1)) (length l2)) (map g l1) =
  map g (l1 ++ l2).
Proof.
  induction l2 as [ | a l2 IH]; intros l1; cbn [length Zrange_from fold_left].
  - now rewrite app_nil_r.
  - rewrite Nat2Z.id, nth_middle.
    replace (map g l1 ++ [g a]) with (map g (l1 ++ [a])) by (now rewrite map_app).
    replace (l1 ++ a :: l2) with ((l1 ++ [a]) ++ l2) by (now rewrite <- app_assoc).
    replace (Z.of_nat (length l1) + 1) with (Z.of_nat (length (l1 ++ [a])))
      by (rewrite length_app; cbn [length]; lia).
    apply IH.
Qed.

(** X9.  The constructor creates one optical-flow point per template
    feature, in the order of the features: the point of a feature is
    its position moved by the top left corner of the tracking
    rectangle, row = y + upper and column = x + left. *)
Theorem constructor_optflow
  (tws : Q) (IplImage kd_node : Type)
  (kdtree_build : list SIFT_feature_unit.t -> Z -> kd_node)
  (Sfeat : list SIFT_feature_unit.t) (preF : IplImage) (Sfeat_num_fp : Z)
  (trackingRect : Rect) :
  let tr := SIFT_opt_tracker_new tws IplImage kd_node kdtree_build
              Sfeat preF Sfeat_num_fp trackingRect in
  optflow IplImage kd_node tr =
    map (fun f => mkPoint2D (SIFT_feature_unit.y f + inject_Z (upper trackingRect))
                            (SIFT_feature_unit.x f + inject_Z (left trackingRect)))
        Sfeat /\
  length (optflow IplImage kd_node tr) = length Sfeat.
Proof.
  cbv zeta.
  assert (E : optflow IplImage kd_node
                (SIFT_opt_tracker_new tws IplImage kd_node kdtree_build
                   Sfeat preF Sfeat_num_fp trackingRect) =
              map (fun f => mkPoint2D (SIFT_feature_unit.y f + inject_Z (upper trackingRect))
                                      (SIFT_feature_unit.x f + inject_Z (left trackingRect)))
                  Sfeat).
  { unfold SIFT_opt_tracker_new. cbn [optflow]. rewrite for_fold.
    unfold Zrange, GetLength, GetFeat.
    replace (Z.to_nat (Z.of_nat (length Sfeat) - 0)) with (length Sfeat) by lia.
    apply (push_back_loop _ _
             (fun f => mkPoint2D (SIFT_feature_unit.y f + inject_Z (upper trackingRect))
                                 (SIFT_feature_unit.x f + inject_Z (left trackingRect)))
             (SIFT_feature_unit.mk 0 0 0 []) Sfeat []). }
  split; [exact E | ]. now rewrite E, length_map.
Qed.

(** ** The string functions *)

Section StringFacts.

Import CString.

Local Open Scope nat_scope.

Lemma c_str_app (s : list Byte.byte) (r : mem) :
  ~ In NUL s -> c_str (s ++ NUL :: r) = s.
Proof.
  induction s as [ | a s IH]; intros H; cbn [app c_str].
  - reflexivity.
  - destruct (Byte.eqb a NUL) eqn:E.
    + apply Byte.byte_dec_bl in E. subst a. exfalso. apply H. now left.
    + f_equal. apply IH. intros H'. apply H. now right.
Qed.

Lemma c_str_no_NUL (m : mem) : ~ In NUL (c_str m).
Proof.
  induction m as [ | a m IH]; cbn [c_str]; [easy | ].
  destruct (Byte.eqb a NUL) eqn:E; [easy | ].
  intros [H | H]; [ | easy]. subst a. discriminate E.
Qed.

Lemma terminated_app (s : list Byte.byte) (r : mem) : terminated (s ++ NUL :: r) = true.
Proof. unfold terminated. rewrite existsb_app. cbn. apply orb_true_r. Qed.

Lemma terminated_split (m : mem) :
  terminated m = true -> exists r, m = c_str m ++ NUL :: r.
Proof.
  induction m as [ | a m IH]; [discriminate | ].
  unfold terminated. cbn [existsb c_str]. destruct (Byte.eqb a NUL) eqn:E.
  - intros _. apply Byte.byte_dec_bl in E. subst a. now exists m.
  - destruct (Byte.eqb NUL a) eqn:E'.
    + apply Byte.byte_dec_bl in E'. subst a. discriminate E.
    + cbn [orb]. intros H. destruct (IH H) as [r Hr]. exists r. cbn [app]. now f_equal.
Qed.

Lemma strlen_app (s : list Byte.byte) (r : mem) :
  ~ In NUL s -> strlen (s ++ NUL :: r) = Some (length s).
Proof. intros H. unfold strlen. now rewrite terminated_app, c_str_app. Qed.

Lemma firstn_length_app (A : Type) (pre l : list A) : firstn (length pre) (pre ++ l) = pre.
Proof. induction pre as [ | a pre IH]; cbn; [now destruct l | now f_equal]. Qed.

Lemma skipn_length_app (A : Type) (pre l : list A) : skipn (length pre) (pre ++ l) = l.
Proof. induction pre as [ | a pre IH]; cbn; [reflexivity | exact IH]. Qed.

Lemma poke_app (pre post : list Byte.byte) (x b : Byte.byte) :
  poke (pre ++ x :: post) (length pre) b = Some (pre ++ b :: post).
Proof.
  unfold poke. rewrite length_app. cbn [length].
  destruct (Nat.ltb_spec (length pre) (length pre + S (length post))); [ | lia].
  rewrite firstn_length_app. do 3 f_equal.
  replace (pre ++ x :: post) with ((pre ++ [x]) ++ post) by (now rewrite <- app_assoc).
  replace (S (length pre)) with (length (pre ++ [x]))
    by (rewrite length_app; cbn [length]; lia).
  apply skipn_length_app.
Qed.

Lemma write_app (bs : list Byte.byte) :
  forall pre mid post : list Byte.byte,
  length mid = length bs ->
  write (pre ++ mid ++ post) (length pre) bs = Some (pre ++ bs ++ post).
Proof.
  induction bs as [ | b bs IH]; intros pre mid post H.
  - destruct mid; [reflexivity | discriminate].
  - destruct mid as [ | x mid]; [discriminate | ]. cbn [write app].
    rewrite poke_app.
    replace (pre ++ b :: mid ++ post) with ((pre ++ [b]) ++ mid ++ post)
      by (now rewrite <- app_assoc).
    replace (S (length pre)) with (length (pre ++ [b]))
      by (rewrite length_app; cbn [length]; lia).
    rewrite IH by (cbn [length] in H; lia).
    now rewrite <- app_assoc.
Qed.

Lemma write_at (p : mem) (i : nat) (bs : list Byte.byte) :
  i + length bs <= length p ->
  write p i bs = Some (firstn i p ++ bs ++ skipn (i + length bs) p).
Proof.
  intros H.
  pose proof (write_app bs (firstn i p) (firstn (length bs) (skipn i p))
                (skipn (length bs) (skipn i p))) as W.
  rewrite !firstn_skipn, length_firstn, length_skipn, length_firstn in W.
  replace (Nat.min i (length p)) with i in W by lia.
  rewrite W by lia. now rewrite skipn_skipn, (Nat.add_comm (length bs)).
Qed.

(** [strcpy] into a block with room for the string and its
    terminator. *)
Lemma strcpy_fits (dst src : mem) :
  terminated src = true ->
  length (c_str src) < length dst ->
  strcpy dst src = Some (c_str src ++ NUL :: skipn (S (length (c_str src))) dst).
Proof.
  intros T H. unfold strcpy. rewrite T, write_at
    by (rewrite length_app; cbn [length]; lia).
  cbn [firstn app]. rewrite <- app_assoc, length_app. cbn [length app].
  now rewrite Nat.add_1_r.
Qed.

(** [strcat] to a string that is followed by room for the addition. *)
Lemma strcat_fits (s : list Byte.byte) (rest src : mem) :
  ~ In NUL s ->
  terminated src = true ->
  length (c_str src) <= length rest ->
  strcat (s ++ NUL :: rest) src =
    Some (s ++ c_str src ++ NUL :: skipn (length (c_str src)) rest).
Proof.
  intros Hs T H. unfold strcat. rewrite strlen_app, T by exact Hs.
  rewrite <- (firstn_skipn (length (c_str src)) rest) at 1.
  change (s ++ NUL :: firstn (length (c_str src)) rest ++ skipn (length (c_str src)) rest)
    with (s ++ (NUL :: firstn (length (c_str src)) rest) ++ skipn (length (c_str src)) rest).
  rewrite write_app
    by (cbn [length]; rewrite length_firstn, length_app; cbn [length]; lia).
  now rewrite <- app_assoc.
Qed.

Lemma last_index_None (c : Byte.byte) (s : list Byte.byte) :
  last_index c s = None <-> ~ In c s.
Proof.
  induction s as [ | b s IH]; cbn [last_index In]; [easy | ].
  destruct (last_index c s) as [k | ].
  - split; [discriminate | ]. intros H. exfalso. apply H. right.
    destruct (in_dec Byte.byte_eq_dec c s) as [ | N]; [easy | ].
    apply IH in N. discriminate.
  - destruct (Byte.eqb b c) eqn:E.
    + apply Byte.byte_dec_bl in E. split; [discriminate | ]. intros H. exfalso. apply H. now left.
    + apply Byte.eqb_false in E. split; [ | easy]. intros _ [H | H]; [easy | ].
      now apply IH in H.
Qed.

Lemma last_index_Some (c : Byte.byte) (s : list Byte.byte) :
  forall k, last_index c s = Some k ->
  exists pre post, s = pre ++ c :: post /\ length pre = k /\ ~ In c post.
Proof.
  induction s as [ | b s IH]; cbn [last_index]; [discriminate | ].
  intros k. destruct (last_index c s) as [k' | ] eqn:L.
  - intros [= <-]. destruct (IH k' eq_refl) as (pre & post & -> & <- & N).
    now exists (b :: pre), post.
  - destruct (Byte.eqb b c) eqn:E; [ | discriminate]. intros [= <-].
    apply Byte.byte_dec_bl in E. subst b. exists [], s. apply last_index_None in L.
    easy.
Qed.

Lemma last_index_app (c : Byte.byte) (pre post : list Byte.byte) :
  ~ In c post -> last_index c (pre ++ c :: post) = Some (length pre).
Proof.
  intros N. induction pre as [ | b pre IH]; cbn [app last_index length].
  - apply last_index_None in N. rewrite N. now rewrite (Byte.byte_dec_lb eq_refl).
  - now rewrite IH.
Qed.

Lemma strrchr_found (c : Byte.byte) (pre post : list Byte.byte) (r : mem) :
  c <> NUL -> ~ In NUL pre -> ~ In NUL post -> ~ In c post ->
  strrchr (pre ++ c :: post ++ NUL :: r) c = Some (Some (length pre)).
Proof.
  intros Hc Hpre Hpost N. unfold strrchr.
  replace (pre ++ c :: post ++ NUL :: r) with ((pre ++ c :: post) ++ NUL :: r)
    by (now rewrite <- app_assoc).
  rewrite terminated_app, c_str_app.
  - rewrite <- app_assoc. cbn [app]. rewrite last_index_app; [reflexivity | ].
    rewrite in_app_iff. cbn [In]. intuition congruence.
  - rewrite in_app_iff. cbn [In]. intuition congruence.
Qed.

Lemma strrchr_absent (c : Byte.byte) (s : list Byte.byte) (r : mem) :
  c <> NUL -> ~ In NUL s -> ~ In c s ->
  strrchr (s ++ NUL :: r) c = Some None.
Proof.
  intros Hc Hs N. unfold strrchr. rewrite terminated_app, c_str_app by exact Hs.
  f_equal. apply last_index_None. rewrite in_app_iff. cbn [In]. intuition congruence.
Qed.

(** A string either has no [c], or splits at its last [c]. *)
Lemma split_at_last (c : Byte.byte) (s : list Byte.byte) :
  ~ In c s \/ exists pre post, s = pre ++ c :: post /\ ~ In c post.
Proof.
  destruct (last_index c s) as [k | ] eqn:L.
  - right. destruct (last_index_Some _ _ _ L) as (pre & post & E & _ & N).
    now exists pre, post.
  - left. now apply last_index_None.
Qed.

End StringFacts.

Section StringFunctions.

Import CString.

Local Open Scope nat_scope.

Variable available : nat -> bool.

Lemma skipn_repeat_NUL (k n : nat) : skipn k (repeat NUL n) = repeat NUL (n - k).
Proof.
  revert n. induction k as [ | k IH]; intros n.
  - now rewrite Nat.sub_0_r.
  - destruct n as [ | n]; [reflexivity | apply IH].
Qed.

(** The first three statements of [replace_extension]: the new block
    holds the file name, followed by the room for a dot and the
    extension. *)
Lemma replace_extension_copied (F : list Byte.byte) (r extn : mem) :
  ~ In NUL F ->
  terminated extn = true ->
  available (length F + length (c_str extn) + 2) = true ->
  replace_extension available (F ++ NUL :: r) extn =
    match strrchr (F ++ NUL :: repeat NUL (length (c_str extn) + 1)) Byte.x2e with
    | Some lastdot =>
        match
          match lastdot with
          | Some lastdot =>
              poke (F ++ NUL :: repeat NUL (length (c_str extn) + 1)) (lastdot + 1) NUL
          | None =>
              strcat (F ++ NUL :: repeat NUL (length (c_str extn) + 1)) [Byte.x2e; NUL]
          end
        with
        | Some new_file => strcat new_file extn
        | None => None
        end
    | None => None
    end.
Proof.
  intros HF T A. unfold replace_extension, calloc.
  rewrite strlen_app by exact HF. unfold strlen at 1. rewrite T.
  rewrite Nat.mul_1_r, A.
  rewrite strcpy_fits
    by (rewrite ?terminated_app, ?c_str_app, ?repeat_length by exact HF; (reflexivity || lia)).
  rewrite c_str_app, skipn_repeat_NUL by exact HF.
  replace (length F + length (c_str extn) + 2 - S (length F))
    with (length (c_str extn) + 1) by lia.
  reflexivity.
Qed.

Lemma replace_extension_no_dot (F : list Byte.byte) (r extn : mem) :
  ~ In NUL F -> ~ In Byte.x2e F ->
  terminated extn = true ->
  available (length F + length (c_str extn) + 2) = true ->
  replace_extension available (F ++ NUL :: r) extn =
    Some (F ++ Byte.x2e :: c_str extn ++ [NUL]).
Proof.
  intros HF N T A. rewrite replace_extension_copied by assumption.
  rewrite strrchr_absent by (assumption || discriminate).
  rewrite strcat_fits
    by (try assumption; try reflexivity; cbn; rewrite repeat_length; lia).
  change (c_str [Byte.x2e; NUL]) with [Byte.x2e]. cbn [length app].
  rewrite skipn_repeat_NUL.
  replace (length (c_str extn) + 1 - 1) with (length (c_str extn)) by lia.
  change (F ++ Byte.x2e :: NUL :: repeat NUL (length (c_str extn)))
    with (F ++ [Byte.x2e] ++ NUL :: repeat NUL (length (c_str extn))).
  rewrite app_assoc.
  rewrite strcat_fits.
  - rewrite skipn_repeat_NUL, Nat.sub_diag, <- app_assoc. reflexivity.
  - rewrite in_app_iff. cbn [In]. intuition discriminate.
  - exact T.
  - now rewrite repeat_length.
Qed.

Lemma replace_extension_dot (pre post : list Byte.byte) (r extn : mem) :
  ~ In NUL pre -> ~ In NUL post -> ~ In Byte.x2e post ->
  terminated extn = true ->
  available (length (pre ++ Byte.x2e :: post) + length (c_str extn) + 2) = true ->
  exists rem : mem,
    replace_extension available (pre ++ Byte.x2e :: post ++ NUL :: r) extn =
      Some (pre ++ Byte.x2e :: c_str extn ++ NUL :: rem) /\
    length rem = length post + 1.
Proof.
  intros Hpre Hpost N T A.
  assert (HF : ~ In NUL (pre ++ Byte.x2e :: post)).
  { rewrite in_app_iff. cbn [In]. intuition discriminate. }
  replace (pre ++ Byte.x2e :: post ++ NUL :: r)
    with ((pre ++ Byte.x2e :: post) ++ NUL :: r) by (now rewrite <- app_assoc).
  rewrite replace_extension_copied by assumption.
  rewrite <- app_assoc. cbn [app].
  rewrite strrchr_found by (assumption || discriminate).
  assert (E : exists x tl,
             post ++ NUL :: repeat NUL (length (c_str extn) + 1) = x :: tl /\
             length tl = length post + length (c_str extn) + 1).
  { destruct post as [ | x post'].
    - exists NUL, (repeat NUL (length (c_str extn) + 1)). split; [reflexivity | ].
      rewrite repeat_length. reflexivity.
    - exists x, (post' ++ NUL :: repeat NUL (length (c_str extn) + 1)).
      split; [reflexivity | ].
      rewrite length_app. cbn [length]. rewrite repeat_length. lia. }
  destruct E as (x & tl & -> & Ltl).
  change (pre ++ Byte.x2e :: x :: tl) with (pre ++ [Byte.x2e] ++ x :: tl).
  rewrite app_assoc.
  replace (length pre + 1) with (length (pre ++ [Byte.x2e]))
    by (rewrite length_app; reflexivity).
  rewrite poke_app.
  rewrite strcat_fits.
  - exists (skipn (length (c_str extn)) tl). split.
    + now rewrite <- app_assoc.
    + rewrite length_skipn. lia.
  - rewrite in_app_iff. cbn [In]. intuition discriminate.
  - exact T.
  - lia.
Qed.

Lemma basename_no_slash (P : list Byte.byte) (r : mem) :
  ~ In NUL P -> ~ In Byte.x2f P ->
  available (length P + 1) = true ->
  basename available (P ++ NUL :: r) = Some (P ++ [NUL]).
Proof.
  intros HP N A. unfold basename, calloc.
  rewrite strrchr_absent by (assumption || discriminate).
  rewrite strlen_app by exact HP. rewrite Nat.mul_1_r, A.
  rewrite strcpy_fits
    by (rewrite ?terminated_app, ?c_str_app, ?repeat_length by exact HP; (reflexivity || lia)).
  rewrite c_str_app, skipn_repeat_NUL by exact HP.
  replace (length P + 1 - S (length P)) with 0 by lia. reflexivity.
Qed.

Lemma basename_slash (pre post : list Byte.byte) (r : mem) :
  ~ In NUL pre -> ~ In NUL post -> ~ In Byte.x2f post ->
  available (length post + 1) = true ->
  basename available (pre ++ Byte.x2f :: post ++ NUL :: r) = Some (post ++ [NUL]).
Proof.
  intros Hpre Hpost N A. unfold basename, calloc.
  rewrite strrchr_found by (assumption || discriminate).
  rewrite skipn_length_app.
  change (Byte.x2f :: post ++ NUL :: r) with ((Byte.x2f :: post) ++ NUL :: r).
  rewrite strlen_app by (cbn [In]; intuition discriminate).
  cbn [length]. cbv zeta.
  replace (S (length post) * 1) with (length post + 1) by lia. rewrite A.
  replace (pre ++ (Byte.x2f :: post) ++ NUL :: r)
    with ((pre ++ [Byte.x2f]) ++ post ++ NUL :: r) by (now rewrite <- app_assoc).
  replace (length pre + 1) with (length (pre ++ [Byte.x2f]))
    by (rewrite length_app; reflexivity).
  rewrite skipn_length_app.
  rewrite strcpy_fits
    by (rewrite ?terminated_app, ?c_str_app, ?repeat_length by exact Hpost;
        (reflexivity || lia)).
  rewrite c_str_app, skipn_repeat_NUL by exact Hpost.
  replace (length post + 1 - S (length post)) with 0 by lia. reflexivity.
Qed.

(** X10.  [replace_extension] never writes outside the block it
    allocates, and returns the file name up to its last dot (the whole
    name when it has no dot), a dot and the new extension. *)
Theorem replace_extension_spec (file extn : mem) :
  terminated file = true ->
  terminated extn = true ->
  available (length (c_str file) + length (c_str extn) + 2) = true ->
  exists (new_file : mem) (stem : list Byte.byte),
    replace_extension available file extn = Some new_file /\
    length new_file = length (c_str file) + length (c_str extn) + 2 /\
    c_str new_file = stem ++ Byte.x2e :: c_str extn /\
    ((stem = c_str file /\ ~ In Byte.x2e (c_str file)) \/
     (exists old, c_str file = stem ++ Byte.x2e :: old /\ ~ In Byte.x2e old)).
Proof.
  intros Tf Te A. destruct (terminated_split file Tf) as [r Hr].
  pose proof (c_str_no_NUL file) as HF. pose proof (c_str_no_NUL extn) as HE.
  remember (c_str file) as F eqn:EF. clear EF. subst file.
  destruct (split_at_last Byte.x2e F) as [N | (pre & post & -> & N)].
  - exists (F ++ Byte.x2e :: c_str extn ++ [NUL]), F.
    split; [now apply replace_extension_no_dot | ].
    split; [rewrite length_app; cbn [length]; rewrite length_app; cbn [length]; lia | ].
    split; [ | now left].
    replace (F ++ Byte.x2e :: c_str extn ++ [NUL])
      with ((F ++ Byte.x2e :: c_str extn) ++ [NUL]) by (now rewrite <- app_assoc).
    apply c_str_app. rewrite in_app_iff. cbn [In]. intuition discriminate.
  - assert (Hpre : ~ In NUL pre) by (rewrite in_app_iff in HF; tauto).
    assert (Hpost : ~ In NUL post) by (rewrite in_app_iff in HF; cbn [In] in HF; tauto).
    destruct (replace_extension_dot pre post r extn Hpre Hpost N Te A) as (rem & E & L).
    exists (pre ++ Byte.x2e :: c_str extn ++ NUL :: rem), pre.
    rewrite <- app_assoc. cbn [app]. split; [exact E | ].
    split.
    + rewrite !length_app. cbn [length]. rewrite !length_app. cbn [length]. lia.
    + split; [ | right; now exists post].
      replace (pre ++ Byte.x2e :: c_str extn ++ NUL :: rem)
        with ((pre ++ Byte.x2e :: c_str extn) ++ NUL :: rem) by (now rewrite <- app_assoc).
      apply c_str_app. rewrite in_app_iff. cbn [In]. intuition discriminate.
Qed.

Lemma c_str_replaced (pre E : list Byte.byte) (rem : mem) :
  ~ In NUL pre -> ~ In NUL E ->
  c_str (pre ++ Byte.x2e :: E ++ NUL :: rem) = pre ++ Byte.x2e :: E.
Proof.
  intros Hpre HE.
  replace (pre ++ Byte.x2e :: E ++ NUL :: rem)
    with ((pre ++ Byte.x2e :: E) ++ NUL :: rem) by (now rewrite <- app_assoc).
  apply c_str_app. rewrite in_app_iff. cbn [In]. intuition discriminate.
Qed.

(** X11.  Replacing the extension twice gives the name that replacing
    it once by the second extension gives, when the first extension
    has no dot. *)
Theorem replace_extension_twice (file extn1 extn2 : mem) :
  terminated file = true ->
  terminated extn1 = true ->
  terminated extn2 = true ->
  ~ In Byte.x2e (c_str extn1) ->
  (forall n, available n = true) ->
  exists r1 r2 r : mem,
    replace_extension available file extn1 = Some r1 /\
    replace_extension available r1 extn2 = Some r2 /\
    replace_extension available file extn2 = Some r /\
    c_str r2 = c_str r.
Proof.
  intros Tf T1 T2 N1 A. destruct (terminated_split file Tf) as [r Hr].
  pose proof (c_str_no_NUL file) as HF.
  pose proof (c_str_no_NUL extn1) as H1. pose proof (c_str_no_NUL extn2) as H2.
  remember (c_str file) as F eqn:EF. clear EF. subst file.
  destruct (split_at_last Byte.x2e F) as [N | (pre & post & -> & N)].
  - destruct (replace_extension_dot F (c_str extn1) [] extn2 HF H1 N1 T2 (A _))
      as (rem & E & _).
    exists (F ++ Byte.x2e :: c_str extn1 ++ [NUL]),
           (F ++ Byte.x2e :: c_str extn2 ++ NUL :: rem),
           (F ++ Byte.x2e :: c_str extn2 ++ [NUL]).
    split; [now apply replace_extension_no_dot | ].
    split; [exact E | ].
    split; [now apply replace_extension_no_dot | ].
    now rewrite !c_str_replaced.
  - assert (Hpre : ~ In NUL pre) by (rewrite in_app_iff in HF; tauto).
    assert (Hpost : ~ In NUL post) by (rewrite in_app_iff in HF; cbn [In] in HF; tauto).
    destruct (replace_extension_dot pre post r extn1 Hpre Hpost N T1 (A _))
      as (rem1 & E1 & _).
    destruct (replace_extension_dot pre (c_str extn1) rem1 extn2 Hpre H1 N1 T2 (A _))
      as (rem2 & E2 & _).
    destruct (replace_extension_dot pre post r extn2 Hpre Hpost N T2 (A _))
      as (rem & E & _).
    exists (pre ++ Byte.x2e :: c_str extn1 ++ NUL :: rem1),
           (pre ++ Byte.x2e :: c_str extn2 ++ NUL :: rem2),
           (pre ++ Byte.x2e :: c_str extn2 ++ NUL :: rem).
    rewrite <- app_assoc. cbn [app].
    repeat split; try assumption. now rewrite !c_str_replaced.
Qed.

(** X12.  [basename] allocates exactly the block its result needs and
    never writes outside it; the result is the part of the path name
    after its last slash (the whole name when it has no slash), so it
    holds no slash. *)
Theorem basename_spec (pathname : mem) :
  terminated pathname = true ->
  (forall n, n <= length (c_str pathname) + 1 -> available n = true) ->
  exists (base : mem) (dir : list Byte.byte),
    basename available pathname = Some base /\
    base = c_str base ++ [NUL] /\
    c_str pathname = dir ++ c_str base /\
    ~ In Byte.x2f (c_str base) /\
    (dir = [] \/ exists d, dir = d ++ [Byte.x2f]).
Proof.
  intros T A. destruct (terminated_split pathname T) as [r Hr].
  pose proof (c_str_no_NUL pathname) as HP.
  remember (c_str pathname) as P eqn:EP. clear EP. subst pathname.
  destruct (split_at_last Byte.x2f P) as [N | (pre & post & -> & N)].
  - exists (P ++ [NUL]), []. rewrite c_str_app by exact HP.
    split; [apply basename_no_slash; try assumption; apply A; lia | ].
    repeat split; trivial. now left.
  - assert (Hpre : ~ In NUL pre) by (rewrite in_app_iff in HP; tauto).
    assert (Hpost : ~ In NUL post) by (rewrite in_app_iff in HP; cbn [In] in HP; tauto).
    exists (post ++ [NUL]), (pre ++ [Byte.x2f]). rewrite c_str_app by exact Hpost.
    rewrite <- !app_assoc. cbn [app].
    split.
    + apply basename_slash; try assumption. apply A.
      rewrite length_app. cbn [length]. lia.
    + repeat split; trivial. right. now exists pre.
Qed.

(** X13.  [basename] changes nothing in a name it has produced. *)
Theorem basename_idempotent (pathname : mem) :
  terminated pathname = true ->
  (forall n, n <= length (c_str pathname) + 1 -> available n = true) ->
  exists base : mem,
    basename available pathname = Some base /\
    basename available base = Some base.
Proof.
  intros T A. destruct (terminated_split pathname T) as [r Hr].
  pose proof (c_str_no_NUL pathname) as HP.
  remember (c_str pathname) as P eqn:EP. clear EP. subst pathname.
  destruct (split_at_last Byte.x2f P) as [N | (pre & post & -> & N)].
  - exists (P ++ [NUL]).
    split; apply basename_no_slash; try assumption; apply A; lia.
  - assert (Hpre : ~ In NUL pre) by (rewrite in_app_iff in HP; tauto).
    assert (Hpost : ~ In NUL post) by (rewrite in_app_iff in HP; cbn [In] in HP; tauto).
    assert (Ap : available (length post + 1) = true).
    { apply A. rewrite length_app. cbn [length]. lia. }
    exists (post ++ [NUL]). rewrite <- !app_assoc. cbn [app].
    split; [now apply basename_slash | now apply basename_no_slash].
Qed.

End StringFunctions.

Lemma replace_extension_spec_example :
  exists (new_file : CString.mem) (stem : list Byte.byte),
    replace_extension (fun _ => true) img_jpeg png = Some new_file /\
    length new_file =
      (length (CString.c_str img_jpeg) + length (CString.c_str png) + 2)%nat /\
    CString.c_str new_file = stem ++ Byte.x2e :: CString.c_str png /\
    ((stem = CString.c_str img_jpeg /\ ~ In Byte.x2e (CString.c_str img_jpeg)) \/
     (exists old, CString.c_str img_jpeg = stem ++ Byte.x2e :: old /\ ~ In Byte.x2e old)).
Proof. apply (replace_extension_spec (fun _ => true) img_jpeg png); reflexivity. Defined.

Lemma replace_extension_twice_example :
  exists r1 r2 r : CString.mem,
    replace_extension (fun _ => true) img_jpeg png = Some r1 /\
    replace_extension (fun _ => true) r1 [Byte.x63; Byte.x00] = Some r2 /\
    replace_extension (fun _ => true) img_jpeg [Byte.x63; Byte.x00] = Some r /\
    CString.c_str r2 = CString.c_str r.
Proof.
  apply (replace_extension_twice (fun _ => true) img_jpeg png [Byte.x63; Byte.x00]);
    try reflexivity.
  cbn. intuition discriminate.
Defined.

Lemma basename_spec_example :
  exists (base : CString.mem) (dir : list Byte.byte),
    basename (fun _ => true) tmp_img_jpeg = Some base /\
    base = CString.c_str base ++ [CString.NUL] /\
    CString.c_str tmp_img_jpeg = dir ++ CString.c_str base /\
    ~ In Byte.x2f (CString.c_str base) /\
    (dir = [] \/ exists d, dir = d ++ [Byte.x2f]).
Proof. apply (basename_spec (fun _ => true) tmp_img_jpeg); reflexivity. Defined.

Lemma basename_idempotent_example :
  exists base : CString.mem,
    basename (fun _ => true) tmp_img_jpeg = Some base /\
    basename (fun _ => true) base = Some base.
Proof. apply (basename_idempotent (fun _ => true) tmp_img_jpeg); reflexivity. Defined.

(** ** The pinwheel *)

Lemma progress_calls_app (ds1 ds2 : list Z) (cur : Z) :
  progress_calls (ds1 ++ ds2) cur =
    (fst (progress_calls ds2 (fst (progress_calls ds1 cur))),
     snd (progress_calls ds1 cur) ++ snd (progress_calls ds2 (fst (progress_calls ds1 cur)))).
Proof.
  revert cur. induction ds1 as [ | d ds1 IH]; intros cur; cbn [app progress_calls].
  - cbn [fst snd app]. now destruct (progress_calls ds2 cur).
  - destruct (progress d cur) as [cur1 out1]. rewrite IH.
    destruct (progress_calls ds1 cur1) as [cur2 out2]. cbn [fst snd].
    now rewrite app_assoc.
Qed.

Lemma progress_range (done cur : Z) :
  -1 <= cur <= 3 -> -1 <= fst (progress done cur) <= 3.
Proof.
  intros H. unfold progress. destruct (negb (done =? 0)); cbn [fst]; [lia | ].
  unfold Int32.add. unwrap. rewrite Z.rem_mod_nonneg by lia.
  pose proof (Z.mod_pos_bound (cur + 1) 4). lia.
Qed.

(** X14.  Whatever calls of [progress] have been made, the static
    [cur] lies between -1 and 3, so the next call reads [state]
    inside the array; after a call with [done] set the pinwheel is
    back in its initial state. *)
Theorem progress_state_in_range (dones : list Z) :
  let cur := fst (progress_calls dones cur_init) in
  -1 <= cur <= 3 /\
  (forall done, done <> 0 ->
     fst (progress_calls (dones ++ [done]) cur_init) = cur_init) /\
  0 <= fst (progress 0 cur) <= 3.
Proof.
  cbv zeta.
  assert (R : forall ds c, -1 <= c <= 3 -> -1 <= fst (progress_calls ds c) <= 3).
  { induction ds as [ | d ds IH]; intros c Hc; cbn [progress_calls fst]; [exact Hc | ].
    pose proof (progress_range d c Hc) as H. destruct (progress d c) as [c1 o1].
    cbn [fst] in H. specialize (IH c1 H). now destruct (progress_calls ds c1). }
  specialize (R dones cur_init ltac:(unfold cur_init; lia)).
  split; [exact R | ]. split.
  - intros done Hd. rewrite progress_calls_app. cbn [fst progress_calls].
    unfold progress. apply Z.eqb_neq in Hd. rewrite Hd. reflexivity.
  - unfold progress. cbn [negb Z.eqb fst]. unfold Int32.add. unwrap.
    rewrite Z.rem_mod_nonneg by lia.
    pose proof (Z.mod_pos_bound (fst (progress_calls dones cur_init) + 1) 4). lia.
Qed.

Lemma spin_mod (a b : Z) : a mod 4 = b mod 4 -> spin a = spin b.
Proof. intros H. unfold spin. now rewrite H. Qed.

Lemma flat_map_spin_mod (k : nat) :
  forall a b, a mod 4 = b mod 4 ->
  flat_map spin (Zrange_from a k) = flat_map spin (Zrange_from b k).
Proof.
  induction k as [ | k IH]; intros a b H; cbn [Zrange_from flat_map]; [reflexivity | ].
  rewrite (spin_mod a b H). f_equal. apply IH.
  now rewrite <- (Zplus_mod_idemp_l a), H, Zplus_mod_idemp_l.
Qed.

Lemma progress_spins (k : nat) :
  forall cur, -1 <= cur <= 3 ->
  progress_calls (repeat 0 k) cur =
    (if Nat.eqb k 0 then cur else (cur + Z.of_nat k) mod 4,
     (if (cur =? -1) && negb (Nat.eqb k 0)
      then [Console.Print Console.stderr [Byte.x20; Byte.x20]] else []) ++
     flat_map spin (Zrange_from (cur + 1) k)).
Proof.
  induction k as [ | k IH]; intros cur Hc.
  - cbn. now rewrite andb_false_r.
  - cbn [repeat progress_calls Nat.eqb Zrange_from flat_map negb].
    unfold progress at 1. cbn [negb Z.eqb]. unfold Int32.add. unwrap.
    rewrite Z.rem_mod_nonneg by lia.
    pose proof (Z.mod_pos_bound (cur + 1) 4 ltac:(lia)) as B.
    rewrite IH by lia. rewrite andb_true_r.
    destruct (Z.eqb_spec ((cur + 1) mod 4) (-1)) as [E | _]; [lia | ].
    cbn [andb app]. f_equal.
    + destruct k as [ | k]; cbn [Nat.eqb]; [f_equal; lia | ].
      rewrite Zplus_mod_idemp_l. f_equal. lia.
    + rewrite <- app_assoc. f_equal.
      change (spin (cur + 1)) with
        ([Console.Print Console.stdout
            [Byte.x08; Byte.x08;
             nth (Z.to_nat ((cur + 1) mod 4)) [Byte.x7c; Byte.x2f; Byte.x2d; Byte.x5c]
               Byte.x00;
             Byte.x20]] ++ [Console.Flush Console.stderr]).
      rewrite <- app_assoc. cbn [app]. do 2 f_equal.
      apply flat_map_spin_mod. now rewrite Zplus_mod_idemp_l.
Qed.

(** X15.  From the initial state, calls of [progress(0)] print the two
    blanks once, on [stderr], and then the pinwheel on [stdout]: the
    call number [j] (from 0) prints the character [state[j mod 4]], so
    the characters '|', '/', '-', '\' come round with period 4. *)
Theorem progress_pinwheel (k : nat) :
  progress_calls (repeat 0 (S k)) cur_init =
    (Z.of_nat k mod 4,
     Console.Print Console.stderr [Byte.x20; Byte.x20] ::
     flat_map spin (Zrange_from 0 (S k))).
Proof.
  rewrite progress_spins by (unfold cur_init; lia).
  unfold cur_init. f_equal. cbn [Nat.eqb]. f_equal. lia.
Qed.

(** ** The video viewer *)

Lemma in_bounds_show (n : Z) (s : Player.t) : in_bounds n s -> in_bounds n (show s).
Proof.
  intros [Hi Hs]. split; [exact Hi | ]. cbn [show Player.shown].
  apply Forall_app. split; [exact Hs | ]. now constructor.
Qed.

Lemma in_bounds_set_i (n v : Z) (s : Player.t) :
  0 <= v < n -> in_bounds n s -> in_bounds n (set_i v s).
Proof. intros Hv [_ Hs]. now split. Qed.

Lemma in_bounds_body (n k : Z) (s : Player.t) :
  1 <= n <= Int32.max_int - 9 ->
  in_bounds n s -> in_bounds n (vid_view_body n k s).
Proof.
  unfold Int32.max_int. intros Hn H. pose proof H as [Hi _]. unfold vid_view_body.
  assert (Hmin : forall d, 0 <= d <= 10 ->
            0 <= MIN (Int32.add (Player.i s) d) (Int32.sub n 1) < n).
  { intros d Hd. unfold MIN, Int32.add, Int32.sub. unwrap. split_if; lia. }
  assert (Hmax : forall d, 0 <= d <= 10 -> 0 <= MAX (Int32.sub (Player.i s) d) 0 < n).
  { intros d Hd. unfold MAX, Int32.sub. unwrap. split_if; lia. }
  destruct (negb (Player.playing s =? 0)).
  - cbv zeta.
    assert (B : in_bounds n (show (set_i (MIN (Int32.add (Player.i s) 1) (Int32.sub n 1)) s))).
    { apply in_bounds_show, in_bounds_set_i; [apply Hmin; lia | exact H]. }
    match goal with |- in_bounds n (if ?c then _ else _) => destruct c end;
      [exact B | exact B].
  - repeat match goal with
           | |- in_bounds n (if ?c then _ else _) => destruct c
           end;
      try exact H;
      try (apply in_bounds_show, in_bounds_set_i; [ | exact H]);
      try (apply Hmin; lia); try (apply Hmax; lia); lia.
Qed.

Lemma in_bounds_loop (n : Z) (keys : list Z) :
  1 <= n <= Int32.max_int - 9 ->
  forall s, in_bounds n s -> in_bounds n (vid_view_loop n keys s).
Proof.
  intros Hn. induction keys as [ | k keys IH]; intros s H; cbn [vid_view_loop]; [exact H | ].
  destruct (Player.destroyed s); [exact H | ]. now apply IH, in_bounds_body.
Qed.

(** X16.  For an array of at least one image (and of at most
    [INT_MAX - 9]), whatever keys are pressed and for however long,
    [vid_view] hands to [cvShowImage] only images of the array: every
    index it reads [imgs] at lies between 0 and [n - 1]. *)
Theorem vid_view_in_bounds (n : Z) (keys : list Z) :
  1 <= n <= Int32.max_int - 9 ->
  let s := vid_view n keys in
  0 <= Player.i s < n /\ Forall (fun j => 0 <= j < n) (Player.shown s).
Proof.
  intros Hn. apply (in_bounds_loop n keys Hn). split; cbn; [lia | ].
  constructor; [lia | constructor].
Qed.

Lemma vid_view_in_bounds_example :
  let s := vid_view 3 [65366; 32; -1; -1; 65365; 65288; 27; 32] in
  0 <= Player.i s < 3 /\ Forall (fun j => 0 <= j < 3) (Player.shown s).
Proof. apply (vid_view_in_bounds 3). vm_compute. intuition discriminate. Defined.

(** Playback that no key interrupts runs to the last image. *)
Lemma playback_runs (n : Z) (m : nat) :
  n <= Int32.max_int ->
  forall s,
  Player.playing s <> 0 -> Player.destroyed s = false ->
  0 <= Player.i s -> Player.i s + Z.of_nat (S m) = n - 1 ->
  vid_view_loop n (repeat (-1) (S m)) s =
    Player.mk (n - 1) 0 (Player.shown s ++ Zrange_from (Player.i s + 1) (S m)) false.
Proof.
  unfold Int32.max_int. intros Hn. induction m as [ | m IH]; intros s Hp Hd Hi Hm.
  - cbn [repeat vid_view_loop]. rewrite Hd. unfold vid_view_body.
    apply Z.eqb_neq in Hp. rewrite Hp. cbn [negb]. cbv zeta.
    unfold MIN, Int32.add, Int32.sub. unwrap.
    cbn [show set_i Player.i Player.playing Player.shown Player.destroyed].
    split_if; [lia | ].
    replace (Player.i s + 1) with (n - 1) by lia. rewrite Z.eqb_refl, orb_true_r.
    unfold set_playing, show, set_i.
    cbn [Player.i Player.playing Player.shown Player.destroyed Zrange_from].
    rewrite ?Hd. reflexivity.
  - remember (S m) as m' eqn:Em. cbn [repeat vid_view_loop]. rewrite Hd.
    unfold vid_view_body.
    pose proof Hp as Hp'. apply Z.eqb_neq in Hp'. rewrite Hp'. cbn [negb]. cbv zeta.
    unfold MIN, Int32.add, Int32.sub. unwrap.
    cbn [show set_i Player.i Player.playing Player.shown Player.destroyed].
    split_if; [lia | ].
    destruct (Z.eqb_spec (Player.i s + 1) (n - 1)) as [E | _]; [lia | ].
    cbn [Z.eqb orb].
    rewrite IH; unfold show, set_i;
      cbn [Player.i Player.playing Player.shown Player.destroyed];
      try assumption; try lia.
    cbn [Zrange_from]. now rewrite <- app_assoc.
Qed.

(** X17.  Started with the space key and left alone, [vid_view] shows
    the images 0, 1, ..., n - 1 in this order, each once, and pauses
    at the last one. *)
Theorem vid_view_plays_to_end (n : Z) :
  2 <= n <= Int32.max_int ->
  vid_view n (32 :: repeat (-1) (Z.to_nat (n - 1))) =
    Player.mk (n - 1) 0 (Zrange 0 n) false.
Proof.
  intros Hn.
  change (vid_view n (32 :: repeat (-1) (Z.to_nat (n - 1))))
    with (vid_view_loop n (repeat (-1) (Z.to_nat (n - 1))) (Player.mk 0 1 [0] false)).
  destruct (Z.to_nat (n - 1)) as [ | m] eqn:Em; [lia | ].
  rewrite playback_runs; cbn [Player.i Player.playing Player.shown Player.destroyed];
    try lia; try easy.
  f_equal. unfold Zrange. replace (Z.to_nat (n - 0)) with (S (S m)) by lia.
  reflexivity.
Qed.

Lemma vid_view_plays_to_end_example :
  vid_view 5 (32 :: repeat (-1) (Z.to_nat (5 - 1))) = Player.mk (5 - 1) 0 (Zrange 0 5) false.
Proof. apply (vid_view_plays_to_end 5). vm_compute. intuition discriminate. Defined.

Lemma shows_more_refl (s : Player.t) : shows_more s s.
Proof. exists []. now rewrite app_nil_r. Qed.

Lemma shows_more_trans (s1 s2 s3 : Player.t) :
  shows_more s1 s2 -> shows_more s2 s3 -> shows_more s1 s3.
Proof. intros [r1 E1] [r2 E2]. exists (r1 ++ r2). now rewrite E2, E1, app_assoc. Qed.

Lemma shows_more_goto (v : Z) (s : Player.t) : shows_more s (show (set_i v s)).
Proof. now exists [v]. Qed.

Lemma shows_more_body (n k : Z) (s : Player.t) : shows_more s (vid_view_body n k s).
Proof.
  unfold vid_view_body. destruct (negb (Player.playing s =? 0)).
  - cbv zeta.
    match goal with |- shows_more s (if ?c then _ else _) => destruct c end;
      eexists; reflexivity.
  - repeat match goal with
           | |- shows_more s (if ?c then _ else _) => destruct c
           end;
      solve [eexists; reflexivity | exists []; now rewrite app_nil_r].
Qed.

Lemma shows_more_loop (n : Z) (keys : list Z) :
  forall s, shows_more s (vid_view_loop n keys s).
Proof.
  induction keys as [ | k keys IH]; intros s; cbn [vid_view_loop];
    [apply shows_more_refl | ].
  destruct (Player.destroyed s); [apply shows_more_refl | ].
  eapply shows_more_trans; [apply shows_more_body | apply IH].
Qed.

(** X18.  Whatever [n] is, the first image [vid_view] shows is
    [imgs[0]]: with an array of no image ([n <= 0]) it reads the array
    outside its bounds. *)
Theorem vid_view_first_image (n : Z) (keys : list Z) :
  (exists rest, Player.shown (vid_view n keys) = 0 :: rest) /\
  (n <= 0 -> ~ Forall (fun j => 0 <= j < n) (Player.shown (vid_view n keys))).
Proof.
  destruct (shows_more_loop n keys (show (Player.mk 0 0 [] false))) as [rest E].
  change (Player.shown (vid_view n keys) = [0] ++ rest) in E.
  split; [now exists rest | ].
  intros Hn F. rewrite E in F. inversion F. lia.
Qed.

Lemma window_height_negative_below_image_example :
  height (ModifyTrackingWindows (1 # 2) 0%nat 1%nat image_100
            (store_with (mkRect 150 10 10 10)) 1%nat) < 0.
Proof.
  apply (window_height_negative_below_image (1 # 2) 0%nat 1%nat image_100
           (store_with (mkRect 150 10 10 10))).
  - unfold no_overflow, small. vm_compute. intuition discriminate.
  - vm_compute. discriminate.
  - vm_compute. reflexivity.
Defined.

Lemma constructor_window_narrower_when_padded_example :
  TrackingWindow frame unit
    (SIFT_opt_tracker_new (1 # 2) frame unit (fun _ _ => tt) [] flat 0
       (store_with (mkRect 30 30 20 20) 0%nat)) <>
  ModifyTrackingWindows (1 # 2) 0%nat 1%nat image_100 (store_with (mkRect 30 30 20 20)) 1%nat.
Proof.
  apply (constructor_window_narrower_when_padded (1 # 2) frame unit (fun _ _ => tt) [] flat 0
           0%nat 1%nat image_100 (store_with (mkRect 30 30 20 20))).
  - unfold no_overflow, small. vm_compute. intuition discriminate.
  - vm_compute. discriminate.
  - vm_compute. discriminate.
  - vm_compute. discriminate.
Defined.
